(** * The SAFE application plugin: handles, sessions and authorisation

    A shallow embedding of the plugin's public API modules

      - [api/app.js]  ([initialise], [connect], [authorise],
        [connectAuthorised], [authoriseContainer], [webFetch], the queries,
        [getHomeContainer], [getContainer], [free]);
      - [api/crypto_public_sign_key.js]  ([getRaw], [verify], [free]).

    A promise-returning operation is a state transformer that yields the
    settlement of the promise it returns; [.then] is the bind of that monad and
    [.catch] its handler.  Native promises of the [safe-app] library are taken
    to settle, and each operation runs without interleaving between its own
    suspension points. *)

From stdpp Require Import gmap strings list fin_maps.

Open Scope N_scope.

Set Implicit Arguments.
Set Contextual Implicit.
Set Maximal Implicit Insertion.

(** ** Values crossing the API *)

(** Handles are opaque tokens; the registry hands out numbers. *)
Abbreviation Handle := N (only parsing).
Abbreviation AppRef := N (only parsing).
Abbreviation PromiseId := N (only parsing).
Abbreviation RequestId := N (only parsing).

Abbreviation AuthReq := string (only parsing).
Abbreviation AuthURI := string (only parsing).
Abbreviation Bytes := (list Byte.byte) (only parsing).

(** A property value of the [AppInfo] object. *)
Inductive value :=
| VNull
| VString (s : string).

(** [AppInfo] is a JS object: property names to values. *)
Abbreviation AppInfo := (gmap string value) (only parsing).

(** container name -> requested permission kinds *)
Abbreviation PermissionSet := (gmap string (list string)) (only parsing).

Record Options := { own_container : bool }.

(** The ambient [this] of [initialise]: [this.sender.getURL()]. *)
Record Sender := { getURL : string }.
Record ThisContext := { sender : option Sender }.

(** The file object [f] resolved by the native [webFetch]. *)
Record File := { dataMapName : string }.

(** ** Failures *)

Inductive error :=
| UnknownHandle                      (* the registry found no entry *)
| OperationFailed (cause : string)   (* a native call rejected *)
| Error (message : string)           (* new Error(message) *)
| ReferenceError (ident : string)    (* an identifier bound nowhere *)
| TypeError (what : string).         (* property access on null *)

(** [new Error('Unable to authorise the application: ', err)]: the second
    argument of the constructor does not reach the message. *)
Definition AuthorizationDenied : error :=
  Error "Unable to authorise the application: ".

(** ** Promises *)

Inductive promise (A : Type) :=
| Pending
| Resolved (a : A)
| Rejected (e : error).

(** The settlement of a promise of the native library: it resolves with a
    value or rejects with a cause. *)
Inductive native (A : Type) :=
| Resolves (a : A)
| Rejects (cause : string).

(** ** The external collaborators *)

(** The [safe-app] library, at its interface.  [App] is the state of one
    native [SAFEApp] instance, [NetObj] a native network object (a
    MutableData, a public sign key, an immutable-data reader). *)
Record SafeApp (App NetObj : Type) := {
  initializeApp : AppInfo → native App;
  connectUnregistered : App → native App;
  genAuthUri : App → PermissionSet → option Options → native AuthReq;
  genContainerAuthUri : App → PermissionSet → native AuthReq;
  loginFromURI : App → AuthURI → native App;
  app_webFetch : App → string → native File;
  immutableData_fetch : App → string → native NetObj;
  registered : App → bool;
  app_networkState : App → string;
  auth_canAccessContainer : App → string → option (list string) → native bool;
  auth_refreshContainersPermissions : App → native App;
  auth_getContainersNames : App → native (list string);
  auth_getHomeContainer : App → native NetObj;
  auth_getContainer : App → string → native NetObj;
  netObj_read : NetObj → native Bytes;
  netObj_getRaw : NetObj → native Bytes;
  netObj_verify : NetObj → Bytes → native Bytes;
}.

(** The host the module is loaded in: the library it requires and what the
    global scope binds to the identifier [app] (the module declares only
    [safeApp], [ipc], [genHandle], [getObj] and [freeObj]). *)
Record Host (App NetObj : Type) := {
  safeApp : SafeApp App NetObj;
  global_app : option AppRef;
}.

(** Every call that leaves the plugin, in the order it is made. *)
Inductive NativeCall (NetObj : Type) :=
| CallInitializeApp (info : AppInfo)
| CallConnectUnregistered (a : AppRef)
| CallGenAuthUri (a : AppRef) (permissions : PermissionSet) (options : option Options)
| CallGenContainerAuthUri (a : AppRef) (permissions : PermissionSet)
| CallLoginFromURI (a : AppRef) (uri : AuthURI)
| CallWebFetch (a : AppRef) (url : string)
| CallImmutableFetch (a : AppRef) (name : string)
| CallCanAccessContainer (a : AppRef) (name : string) (permissions : option (list string))
| CallRefreshContainersPermissions (a : AppRef)
| CallGetContainersNames (a : AppRef)
| CallGetHomeContainer (a : AppRef)
| CallGetContainer (a : AppRef) (name : string)
| CallRead (o : NetObj)
| CallGetRaw (o : NetObj)
| CallVerify (o : NetObj) (data : Bytes)
| CallSendAuthReq (req : AuthReq)
| CallRelease (a : AppRef) (o : option NetObj).

(** ** The state of the process *)

(** A registry entry, [{ app, netObj }]. *)
Record Obj (NetObj : Type) := {
  app : AppRef;
  netObj : option NetObj;
}.

(** The callback handed to [ipc.sendAuthReq], as the closure it is: which
    function created it and the promise whose [resolve]/[reject] it holds. *)
Inductive Callback :=
| AuthoriseCb (p : PromiseId)
| AuthoriseContainerCb (p : PromiseId).

Definition cb_promise (cb : Callback) : PromiseId :=
  match cb with
  | AuthoriseCb p => p
  | AuthoriseContainerCb p => p
  end.

Record State (App NetObj : Type) := {
  handles : gmap N (Obj NetObj);      (* the handle table *)
  next_handle : N;
  apps : gmap N App;                  (* the native SAFEApp instances *)
  next_app : N;
  promises : gmap N (promise (option AuthURI));
  next_promise : N;
  inflight : gmap N (AuthReq * Callback);   (* correlations awaiting a reply *)
  next_request : N;
  trace : list (NativeCall NetObj);
}.

Unset Implicit Arguments.
Unset Contextual Implicit.
Unset Maximal Implicit Insertion.

Definition init {App NetObj : Type} : State App NetObj :=
  Build_State ∅ 0 ∅ 0 ∅ 0 ∅ 0 [].

(** ** The promise monad *)

Definition M (S A : Type) : Type := S → promise A * S.

(** [Promise.resolve(a)] *)
Definition ret {S A} (a : A) : M S A := fun s => (Resolved a, s).

(** a [throw] inside a handler, or a rejected promise *)
Definition throw {S A} (e : error) : M S A := fun s => (Rejected e, s).

(** [m.then(f)]: [f] runs once [m] has resolved; a rejection skips it. *)
Definition then_ {S A B} (m : M S A) (f : A → M S B) : M S B :=
  fun s =>
    match m s with
    | (Resolved a, s') => f a s'
    | (Rejected e, s') => (Rejected e, s')
    | (Pending, s') => (Pending, s')
    end.

(** [m.catch(h)] *)
Definition catch_ {S A} (m : M S A) (h : error → M S A) : M S A :=
  fun s =>
    match m s with
    | (Rejected e, s') => h e s'
    | r => r
    end.

Notation "'do' x <- m ; k" := (then_ m (fun x => k))
  (at level 10, x name, m at level 100, k at level 200).

Section Registry.
Context {App NetObj : Type}.

Abbreviation St := (State App NetObj) (only parsing).

(** ** State updates *)

Definition set_handles (f : gmap N (Obj NetObj) → gmap N (Obj NetObj)) (s : St) : St :=
  Build_State (f (handles s)) (next_handle s) (apps s) (next_app s)
    (promises s) (next_promise s) (inflight s) (next_request s) (trace s).

Definition set_next_handle (n : N) (s : St) : St :=
  Build_State (handles s) n (apps s) (next_app s)
    (promises s) (next_promise s) (inflight s) (next_request s) (trace s).

Definition set_apps (f : gmap N App → gmap N App) (s : St) : St :=
  Build_State (handles s) (next_handle s) (f (apps s)) (next_app s)
    (promises s) (next_promise s) (inflight s) (next_request s) (trace s).

Definition set_next_app (n : N) (s : St) : St :=
  Build_State (handles s) (next_handle s) (apps s) n
    (promises s) (next_promise s) (inflight s) (next_request s) (trace s).

Definition set_promises
    (f : gmap N (promise (option AuthURI)) → gmap N (promise (option AuthURI)))
    (s : St) : St :=
  Build_State (handles s) (next_handle s) (apps s) (next_app s)
    (f (promises s)) (next_promise s) (inflight s) (next_request s) (trace s).

Definition set_next_promise (n : N) (s : St) : St :=
  Build_State (handles s) (next_handle s) (apps s) (next_app s)
    (promises s) n (inflight s) (next_request s) (trace s).

Definition set_inflight
    (f : gmap N (AuthReq * Callback) → gmap N (AuthReq * Callback)) (s : St) : St :=
  Build_State (handles s) (next_handle s) (apps s) (next_app s)
    (promises s) (next_promise s) (f (inflight s)) (next_request s) (trace s).

Definition set_next_request (n : N) (s : St) : St :=
  Build_State (handles s) (next_handle s) (apps s) (next_app s)
    (promises s) (next_promise s) (inflight s) n (trace s).

(** record a call that leaves the plugin *)
Definition log (c : NativeCall NetObj) (s : St) : St :=
  Build_State (handles s) (next_handle s) (apps s) (next_app s)
    (promises s) (next_promise s) (inflight s) (next_request s) (trace s ++ [c]).

(** ** helpers.js: the handle registry *)

(** Modelled from the spec: [genHandle] of helpers.js, the registry's
    [allocate(nativeRef, ownerSessionRef?) -> Handle]: it creates a fresh
    entry and returns a handle that is unique for the lifetime of the
    process. *)
Definition genHandle (app : AppRef) (netObj : option NetObj) : M St Handle :=
  fun s =>
    let h := next_handle s in
    (Resolved h,
     set_next_handle (h + 1) (set_handles (insert h (Build_Obj app netObj)) s)).

(** Modelled from the spec: [getObj] of helpers.js, the registry's
    [resolve(handle)]: it fails with [UnknownHandle] if the handle was never
    allocated or has since been freed. *)
Definition getObj (handle : Handle) : M St (Obj NetObj) :=
  fun s =>
    match handles s !! handle with
    | Some obj => (Resolved obj, s)
    | None => (Rejected UnknownHandle, s)
    end.

(** Modelled from the spec: [freeObj] of helpers.js, the registry's
    synchronous [free(handle) -> void]: it removes the entry and releases the
    native reference at the moment of the call; an unknown handle is ignored. *)
Definition freeObj (handle : Handle) (s : St) : St :=
  match handles s !! handle with
  | Some obj => log (CallRelease (app obj) (netObj obj)) (set_handles (delete handle) s)
  | None => s
  end.

(** ** ipc.js: the channel to the authenticator *)

(** Modelled from the spec: [sendAuthReq] of ipc.js: it dispatches the
    request descriptor to the external channel together with a single-shot
    correlation callback. *)
Definition sendAuthReq (authReq : AuthReq) (cb : Callback) : M St unit :=
  fun s =>
    let rid := next_request s in
    (Resolved tt,
     log (CallSendAuthReq authReq)
       (set_next_request (rid + 1) (set_inflight (insert rid (authReq, cb)) s))).

(** ** Promises created with [new Promise] *)

Definition new_promise (s : St) : PromiseId * St :=
  let p := next_promise s in
  (p, set_next_promise (p + 1) (set_promises (insert p Pending) s)).

(** [resolve]/[reject] of a promise settle it once; later calls are ignored. *)
Definition settle (p : PromiseId) (r : promise (option AuthURI)) (s : St) : St :=
  match promises s !! p with
  | Some Pending => set_promises (insert p r) s
  | _ => s
  end.

Definition resolve (p : PromiseId) (res : option AuthURI) : St → St :=
  settle p (Resolved res).

Definition reject (p : PromiseId) (e : error) : St → St :=
  settle p (Rejected e).

(** the settlement an awaiting caller observes *)
Definition await (p : PromiseId) (s : St) : promise (option AuthURI) :=
  match promises s !! p with
  | Some r => r
  | None => Pending
  end.

(** ** Calls into the native library *)

(** how the plugin sees a settled native promise *)
Definition settlement {A} (r : native A) : promise A :=
  match r with
  | Resolves a => Resolved a
  | Rejects cause => Rejected (OperationFailed cause)
  end.

Definition lift {A} (r : native A) : M St A :=
  fun s => (settlement r, s).

(** A method of the [SAFEApp] instance [a] that returns a value.  The
    reference of a registry entry always names an instance ([live] below), so
    the last line is never reached by a call through a handle. *)
Definition call_app {A} (a : AppRef) (c : NativeCall NetObj) (f : App → native A) : M St A :=
  fun s =>
    match apps s !! a with
    | Some st => lift (f st) (log c s)
    | None => (Rejected (TypeError "app"), s)
    end.

(** a method of the [SAFEApp] instance [a] that changes the instance *)
Definition update_app (a : AppRef) (c : NativeCall NetObj) (f : App → native App) : M St unit :=
  fun s =>
    match apps s !! a with
    | Some st =>
        match f st with
        | Resolves st' => (Resolved tt, set_apps (insert a st') (log c s))
        | Rejects cause => (Rejected (OperationFailed cause), log c s)
        end
    | None => (Rejected (TypeError "app"), s)
    end.

(** a property of the [SAFEApp] instance [a] *)
Definition read_app {A} (a : AppRef) (f : App → A) : M St A :=
  fun s =>
    match apps s !! a with
    | Some st => (Resolved (f st), s)
    | None => (Rejected (TypeError "app"), s)
    end.

(** a method of a native network object; [null.method()] throws *)
Definition call_netObj {A} (o : option NetObj) (c : NetObj → NativeCall NetObj)
    (f : NetObj → native A) : M St A :=
  match o with
  | Some n => fun s => lift (f n) (log (c n) s)
  | None => throw (TypeError "netObj")
  end.

(** [safeApp.initializeApp(appInfo)] creates a new instance *)
Definition new_app (lib : SafeApp App NetObj) (appInfo : AppInfo) : M St AppRef :=
  fun s =>
    match initializeApp lib appInfo with
    | Resolves st =>
        let a := next_app s in
        (Resolved a,
         set_next_app (a + 1) (set_apps (insert a st) (log (CallInitializeApp appInfo) s)))
    | Rejects cause =>
        (Rejected (OperationFailed cause), log (CallInitializeApp appInfo) s)
    end.

End Registry.

(** ** api/app.js *)

Section AppApi.
Context {App NetObj : Type}.
Variable host : Host App NetObj.

Abbreviation St := (State App NetObj) (only parsing).
Abbreviation lib := (safeApp host) (only parsing).

(** the value of [this && this.sender] when it is truthy *)
Definition this_sender (this : option ThisContext) : option Sender :=
  match this with
  | Some t => sender t
  | None => None
  end.

(** [initialise]: the first component is the caller's [appInfo] object as the
    call leaves it, the second the returned promise. *)
Definition initialise (this : option ThisContext) (appInfo : AppInfo)
    : AppInfo * M St Handle :=
  let appInfo :=
    match this_sender this with
    | Some sd =>
        let wholeUrl := getURL sd in
        <["scope" := VString wholeUrl]> appInfo
    | None => <["scope" := VNull]> appInfo
    end in
  (appInfo,
   do app <- new_app lib appInfo;
   genHandle app None).

Definition connect (appToken : Handle) : M St Handle :=
  do obj <- getObj appToken;
  do _ <- update_app (app obj) (CallConnectUnregistered (app obj))
            (connectUnregistered lib);
  ret appToken.

(** the callback [(err, res) => ...] that [authorise] hands to the channel *)
Definition authorise_callback (p : PromiseId) (err : option string)
    (res : option AuthURI) : St → St :=
  match err with
  | Some _ => reject p (Error "Unable to authorise the application: ")
  | None => resolve p res
  end.

(** [authorise] returns the promise it creates; the executor runs at once and
    its chain ends in [.catch(reject)]. *)
Definition authorise (appToken : Handle) (permissions : PermissionSet)
    (options : option Options) : St → PromiseId * St :=
  fun s =>
    let '(p, s) := new_promise s in
    let executor :=
      catch_
        (do obj <- getObj appToken;
         do authReq <- call_app (app obj)
                         (CallGenAuthUri (app obj) permissions options)
                         (fun a => genAuthUri lib a permissions options);
         sendAuthReq authReq (AuthoriseCb p))
        (fun e s => (Resolved tt, reject p e s)) in
    (p, snd (executor s)).

Definition connectAuthorised (appToken : Handle) (authUri : AuthURI) : M St Handle :=
  do obj <- getObj appToken;
  do _ <- update_app (app obj) (CallLoginFromURI (app obj) authUri)
            (fun a => loginFromURI lib a authUri);
  ret appToken.

(** the callback [(err, res) => ...] of [authoriseContainer] *)
Definition authoriseContainer_callback (p : PromiseId) (err : option string)
    (res : option AuthURI) : St → St :=
  match err with
  | Some _ => reject p (Error "Unable to authorise the application: ")
  | None => resolve p res
  end.

Definition authoriseContainer (appToken : Handle) (permissions : PermissionSet)
    : St → PromiseId * St :=
  fun s =>
    let '(p, s) := new_promise s in
    let executor :=
      catch_
        (do obj <- getObj appToken;
         do authReq <- call_app (app obj)
                         (CallGenContainerAuthUri (app obj) permissions)
                         (fun a => genContainerAuthUri lib a permissions);
         sendAuthReq authReq (AuthoriseContainerCb p))
        (fun e s => (Resolved tt, reject p e s)) in
    (p, snd (executor s)).

(** [webFetch]: the second handler names [app], which no scope of the module
    binds; it is looked up in the global scope of the host. *)
Definition webFetch (appToken : Handle) (url : string) : M St Bytes :=
  do obj <- getObj appToken;
  do f <- call_app (app obj) (CallWebFetch (app obj) url)
            (fun a => app_webFetch lib a url);
  do i <- match global_app host with
          | Some g =>
              call_app g (CallImmutableFetch g (dataMapName f))
                (fun a => immutableData_fetch lib a (dataMapName f))
          | None => throw (ReferenceError "app")
          end;
  call_netObj (Some i) CallRead (netObj_read lib).

Definition isRegistered (appToken : Handle) : M St bool :=
  do obj <- getObj appToken;
  read_app (app obj) (registered lib).

Definition networkState (appToken : Handle) : M St string :=
  do obj <- getObj appToken;
  read_app (app obj) (app_networkState lib).

Definition canAccessContainer (appToken : Handle) (name : string)
    (permissions : option (list string)) : M St bool :=
  do obj <- getObj appToken;
  call_app (app obj) (CallCanAccessContainer (app obj) name permissions)
    (fun a => auth_canAccessContainer lib a name permissions).

Definition refreshContainersPermissions (appToken : Handle) : M St Handle :=
  do obj <- getObj appToken;
  do _ <- update_app (app obj) (CallRefreshContainersPermissions (app obj))
            (auth_refreshContainersPermissions lib);
  ret appToken.

Definition getContainersNames (appToken : Handle) : M St (list string) :=
  do obj <- getObj appToken;
  call_app (app obj) (CallGetContainersNames (app obj)) (auth_getContainersNames lib).

Definition getHomeContainer (appToken : Handle) : M St Handle :=
  do obj <- getObj appToken;
  do md <- call_app (app obj) (CallGetHomeContainer (app obj)) (auth_getHomeContainer lib);
  genHandle (app obj) (Some md).

Definition getContainer (appToken : Handle) (name : string) : M St Handle :=
  do obj <- getObj appToken;
  do md <- call_app (app obj) (CallGetContainer (app obj) name)
             (fun a => auth_getContainer lib a name);
  genHandle (app obj) (Some md).

Definition free (appToken : Handle) : St → St := freeObj appToken.

End AppApi.

(** ** api/crypto_public_sign_key.js *)

Module CryptoPublicSignKey.
Section Adapter.
Context {App NetObj : Type}.
Variable host : Host App NetObj.

Definition getRaw (pubSignKeyHandle : Handle) : M (State App NetObj) Bytes :=
  do obj <- getObj pubSignKeyHandle;
  call_netObj (netObj obj) CallGetRaw (netObj_getRaw (safeApp host)).

Definition verify (pubSignKeyHandle : Handle) (data : Bytes)
    : M (State App NetObj) Bytes :=
  do obj <- getObj pubSignKeyHandle;
  call_netObj (netObj obj) (fun o => CallVerify o data)
    (fun o => netObj_verify (safeApp host) o data).

Definition free (pubSignKeyHandle : Handle) : State App NetObj → State App NetObj :=
  freeObj pubSignKeyHandle.

End Adapter.
End CryptoPublicSignKey.

(** ** The authenticator's reply *)

Section Events.
Context {App NetObj : Type}.
Variable host : Host App NetObj.

Abbreviation St := (State App NetObj) (only parsing).

(** invoking a callback the channel holds *)
Definition run_callback (cb : Callback) (err : option string)
    (res : option AuthURI) : St → St :=
  match cb with
  | AuthoriseCb p => authorise_callback p err res
  | AuthoriseContainerCb p => authoriseContainer_callback p err res
  end.

(** Modelled from the spec: the reply path of ipc.js: the response is
    delivered via a single callback invocation, and at most one callback is
    ever invoked for a given dispatch; a reply that matches no pending
    dispatch is ignored. *)
Definition deliver (rid : RequestId) (err : option string) (res : option AuthURI)
    (s : St) : St :=
  match inflight s !! rid with
  | Some (_, cb) => run_callback cb err res (set_inflight (delete rid) s)
  | None => s
  end.

(** ** The public surface as one interface *)

(** the operations that take a handle *)
Inductive operation :=
| Connect
| Authorise (permissions : PermissionSet) (options : option Options)
| ConnectAuthorised (authUri : AuthURI)
| AuthoriseContainer (permissions : PermissionSet)
| WebFetch (url : string)
| IsRegistered
| NetworkState
| CanAccessContainer (name : string) (permissions : option (list string))
| RefreshContainersPermissions
| GetContainersNames
| GetHomeContainer
| GetContainer (name : string)
| GetRaw
| Verify (data : Bytes).

(** what a caller receives *)
Inductive response :=
| RToken (h : Handle)
| RAuthURI (uri : option AuthURI)
| RBool (b : bool)
| RString (str : string)
| RNames (names : list string)
| RBytes (b : Bytes).

Definition promise_map {A B} (f : A → B) (r : promise A) : promise B :=
  match r with
  | Pending => Pending
  | Resolved a => Resolved (f a)
  | Rejected e => Rejected e
  end.

Definition answer {A} (f : A → response) (m : M St A) : M St response :=
  fun s => let '(r, s') := m s in (promise_map f r, s').

(** what the caller of a [new Promise] operation observes once the executor
    has run *)
Definition awaiting (m : St → PromiseId * St) : M St response :=
  fun s => let '(p, s') := m s in (promise_map RAuthURI (await p s'), s').

Definition invoke (op : operation) (h : Handle) : M St response :=
  match op with
  | Connect => answer RToken (connect host h)
  | Authorise permissions options => awaiting (authorise host h permissions options)
  | ConnectAuthorised authUri => answer RToken (connectAuthorised host h authUri)
  | AuthoriseContainer permissions => awaiting (authoriseContainer host h permissions)
  | WebFetch url => answer RBytes (webFetch host h url)
  | IsRegistered => answer RBool (isRegistered host h)
  | NetworkState => answer RString (networkState host h)
  | CanAccessContainer name permissions =>
      answer RBool (canAccessContainer host h name permissions)
  | RefreshContainersPermissions => answer RToken (refreshContainersPermissions host h)
  | GetContainersNames => answer RNames (getContainersNames host h)
  | GetHomeContainer => answer RToken (getHomeContainer host h)
  | GetContainer name => answer RToken (getContainer host h name)
  | GetRaw => answer RBytes (CryptoPublicSignKey.getRaw host h)
  | Verify data => answer RBytes (CryptoPublicSignKey.verify host h data)
  end.

(** everything that can happen to the process *)
Inductive event :=
| Initialise (this : option ThisContext) (appInfo : AppInfo)
| Invoke (op : operation) (h : Handle)
| Free (h : Handle)
| FreeKey (h : Handle)
| Deliver (rid : RequestId) (err : option string) (res : option AuthURI).

Definition step (e : event) (s : St) : St :=
  match e with
  | Initialise this appInfo => snd (snd (initialise host this appInfo) s)
  | Invoke op h => snd (invoke op h s)
  | Free h => free h s
  | FreeKey h => CryptoPublicSignKey.free h s
  | Deliver rid err res => deliver rid err res s
  end.

Definition run (evs : list event) (s : St) : St :=
  foldl (fun s e => step e s) s evs.

(** the reply to request [rid] is not among the events *)
Definition is_reply (rid : RequestId) (e : event) : bool :=
  match e with
  | Deliver rid' _ _ => N.eqb rid' rid
  | _ => false
  end.

Definition no_reply (rid : RequestId) (evs : list event) : bool :=
  forallb (fun e => negb (is_reply rid e)) evs.

(** ** The authorisation protocol, in the words of its description *)

(** Steps 1 to 4: build the request and encode it into a descriptor,
    dispatch the descriptor with a single-shot correlation callback, and
    leave the caller's operation suspended; a failure before the dispatch
    settles the operation with that failure. *)
Definition authorization_protocol (build : Obj NetObj → M St AuthReq)
    (correlate : PromiseId → Callback) (session : Handle) : St → PromiseId * St :=
  fun s =>
    let '(operation, s) := new_promise s in
    match getObj session s with
    | (Resolved obj, s) =>
        match build obj s with
        | (Resolved descriptor, s) =>
            (operation, snd (sendAuthReq descriptor (correlate operation) s))
        | (Rejected e, s) => (operation, reject operation e s)
        | (Pending, s) => (operation, s)
        end
    | (Rejected e, s) => (operation, reject operation e s)
    | (Pending, s) => (operation, s)
    end.

(** Step 5: on success the callback carries an AuthURI and the operation
    resolves with it; on failure it fails with [AuthorizationDenied]. *)
Definition protocol_reply (operation : PromiseId) (err : option string)
    (res : option AuthURI) : St → St :=
  match err with
  | None => resolve operation res
  | Some _ => reject operation AuthorizationDenied
  end.

End Events.

(** ** A reference host *)

(** A small library that follows the session state machine: an instance is
    created unconnected and unregistered, [connectUnregistered] connects it,
    a granted URI registers it; a request for an unknown permission kind is
    refused by the encoder. *)
Module Reference.

Record app_state := {
  connected : bool;
  is_registered : bool;
}.

Inductive net_obj :=
| Container (name : string)
| SignKey (raw : Bytes)
| Reader (content : Bytes).

Definition permission_kinds : list string :=
  ["Read"; "Insert"; "Update"; "Delete"; "ManagePermissions"].

Definition known_kind (k : string) : bool :=
  bool_decide (k ∈ permission_kinds).

Definition encodable (permissions : PermissionSet) : bool :=
  forallb (fun kv => forallb known_kind (snd kv)) (map_to_list permissions).

Definition granted_uri : AuthURI := "safe-auth://granted".

Definition reference_lib : SafeApp app_state net_obj := {|
  initializeApp := fun _ => Resolves {| connected := false; is_registered := false |};
  connectUnregistered := fun _ => Resolves {| connected := true; is_registered := false |};
  genAuthUri := fun _ permissions _ =>
    if encodable permissions then Resolves "safe-auth://request"
    else Rejects "Invalid permission";
  genContainerAuthUri := fun _ permissions =>
    if encodable permissions then Resolves "safe-auth://containers"
    else Rejects "Invalid permission";
  loginFromURI := fun _ uri =>
    if bool_decide (uri = granted_uri)
    then Resolves {| connected := true; is_registered := true |}
    else Rejects "Invalid URI";
  app_webFetch := fun _ url => Resolves {| dataMapName := url |};
  immutableData_fetch := fun _ _ => Resolves (Reader [Byte.x68; Byte.x69]);
  registered := is_registered;
  app_networkState := fun a => if connected a then "Connected" else "Init";
  auth_canAccessContainer := fun a _ _ =>
    if is_registered a then Resolves true else Rejects "No access";
  auth_refreshContainersPermissions := fun a =>
    if is_registered a then Resolves a else Rejects "No access";
  auth_getContainersNames := fun a =>
    if is_registered a then Resolves ["_public"] else Rejects "No access";
  auth_getHomeContainer := fun a =>
    if is_registered a then Resolves (Container "home") else Rejects "No access";
  auth_getContainer := fun a name =>
    if is_registered a then Resolves (Container name) else Rejects "No access";
  netObj_read := fun o =>
    match o with
    | Reader content => Resolves content
    | _ => Rejects "Not a reader"
    end;
  netObj_getRaw := fun o =>
    match o with
    | SignKey raw => Resolves raw
    | _ => Rejects "Not a key"
    end;
  netObj_verify := fun o data =>
    match o, data with
    | SignKey _, _ :: _ => Resolves data
    | _, _ => Rejects "Verification failed"
    end;
|}.

(** the module loaded in a host whose global scope has no [app] *)
Definition reference : Host app_state net_obj :=
  {| safeApp := reference_lib; global_app := None |}.

Definition appInfo : AppInfo :=
  {[ "id" := VString "a.b"; "name" := VString "App"; "vendor" := VString "V" ]}.

(** after [initialise(appInfo)]: one session, handle 0 *)
Definition created : State app_state net_obj :=
  run reference [Initialise None appInfo] init.

(** a session that holds a sign key under handle 1 *)
Definition with_key : State app_state net_obj :=
  snd (genHandle 0 (Some (SignKey [Byte.x01; Byte.x02])) created).

(** inputs of the scenarios *)
Definition insert_public : PermissionSet := {[ "_public" := ["Insert"] ]}.
Definition write_public : PermissionSet := {[ "_public" := ["Write"] ]}.
Definition session : Obj net_obj := {| app := 0; netObj := None |}.
Definition fresh_app : app_state := {| connected := false; is_registered := false |}.
Definition browsing_app : app_state := {| connected := true; is_registered := false |}.
Definition logged_in_app : app_state := {| connected := true; is_registered := true |}.

End Reference.

(** ** Relations between states, and the invariant of the process *)

Section Invariants.
Context {App NetObj : Type}.

Abbreviation St := (State App NetObj) (only parsing).

(** every run of [m] relates the state it starts in to the one it ends in *)
Definition preserves {A} (R : relation St) (m : M St A) : Prop :=
  ∀ s, R s (snd (m s)).

(** entries are only removed, or added under handles not issued before *)
Definition registry_grows (s s' : St) : Prop :=
  next_handle s ≤ next_handle s' ∧
  ∀ h o, handles s' !! h = Some o →
    handles s !! h = Some o ∨ (next_handle s ≤ h ∧ h < next_handle s').

(** the promises and the channel are as they were *)
Definition channel_untouched (s s' : St) : Prop :=
  promises s' = promises s ∧ next_promise s' = next_promise s ∧
  inflight s' = inflight s ∧ next_request s' = next_request s.

(** nothing but the record of native calls has changed *)
Definition only_trace (s s' : St) : Prop :=
  handles s' = handles s ∧ next_handle s' = next_handle s ∧
  apps s' = apps s ∧ next_app s' = next_app s ∧
  channel_untouched s s'.

(** the registry and the native instances are as they were *)
Definition sessions_untouched (s s' : St) : Prop :=
  handles s' = handles s ∧ next_handle s' = next_handle s ∧
  apps s' = apps s ∧ next_app s' = next_app s.

(** no entry is added, and no native instance is lost *)
Definition instances_kept (s s' : St) : Prop :=
  (∀ a, is_Some (apps s !! a) → is_Some (apps s' !! a)) ∧
  (∀ h o, handles s' !! h = Some o → handles s !! h = Some o).

(** a relation that the bookkeeping of native calls cannot break *)
Class Frame (R : relation St) : Prop := {
  frame_refl : ∀ s, R s s;
  frame_trans : ∀ s1 s2 s3, R s1 s2 → R s2 s3 → R s1 s3;
  frame_log : ∀ c s, R s (log c s);
  frame_set_apps : ∀ a st s, R s (set_apps (insert a st) s);
  frame_set_next_app : ∀ n s, R s (set_next_app n s);
}.

(** ... nor the allocation of a handle *)
Class FrameAlloc (R : relation St) : Prop := {
  frame_genHandle : ∀ a (o : option NetObj) s, R s (snd (genHandle a o s));
}.

(** every registry entry refers to a native instance that exists *)
Definition live (s : St) : Prop :=
  ∀ h o, handles s !! h = Some o → is_Some (apps s !! app o).

Record wf (s : St) : Prop := {
  wf_handles : ∀ h o, handles s !! h = Some o → h < next_handle s;
  wf_promises : ∀ p r, promises s !! p = Some r → p < next_promise s;
  wf_inflight : ∀ rid req cb, inflight s !! rid = Some (req, cb) →
    rid < next_request s ∧ promises s !! cb_promise cb = Some Pending;
  wf_targets : ∀ rid1 rid2 req1 req2 cb1 cb2,
    inflight s !! rid1 = Some (req1, cb1) →
    inflight s !! rid2 = Some (req2, cb2) →
    cb_promise cb1 = cb_promise cb2 → rid1 = rid2;
}.

(** the requests handed to the channel so far *)
Definition is_dispatch (c : NativeCall NetObj) : bool :=
  match c with
  | CallSendAuthReq _ => true
  | _ => false
  end.

Definition dispatches (s : St) : nat :=
  length (List.filter is_dispatch (trace s)).

(** the two operations that add an entry to the registry *)
Definition allocates (op : operation) : bool :=
  match op with
  | GetHomeContainer | GetContainer _ => true
  | _ => false
  end.

(** the two operations that run the authorisation protocol *)
Definition is_authorisation (op : operation) : bool :=
  match op with
  | Authorise _ _ | AuthoriseContainer _ => true
  | _ => false
  end.

End Invariants.

(** ** Further relations between states *)

Section Coverage.
Context {App NetObj : Type}.

(** every entry issued so far is still there, under the same handle *)
Definition handles_kept (s s' : State App NetObj) : Prop :=
  next_handle s ≤ next_handle s' ∧
  ∀ h o, h < next_handle s → handles s !! h = Some o → handles s' !! h = Some o.

(** the operations of the key adapter: they use [obj.netObj], all others use
    [obj.app] alone *)
Definition uses_netObj (op : operation) : bool :=
  match op with
  | GetRaw | Verify _ => true
  | _ => false
  end.

(** the operations that resolve with the token they were given *)
Definition returns_token (op : operation) : bool :=
  match op with
  | Connect | ConnectAuthorised _ | RefreshContainersPermissions => true
  | _ => false
  end.

(** the events that run the authorisation protocol or reply to it *)
Definition on_channel (e : event) : bool :=
  match e with
  | Invoke op _ => is_authorisation op
  | Deliver _ _ _ => true
  | _ => false
  end.

(** the events that free the handle [h] *)
Definition frees (h : Handle) (e : event) : bool :=
  match e with
  | Free h' | FreeKey h' => N.eqb h' h
  | _ => false
  end.

End Coverage.

(** ** The manifests *)


Module Manifest.






End Manifest.

(** ** Further scenarios on the reference host *)

Module Scenario.
Import Reference.

(** a library that refuses an application without an [id] *)
Definition strict_lib : SafeApp app_state net_obj := {|
  initializeApp := fun info =>
    match info !! "id" with
    | Some (VString _) => Resolves fresh_app
    | _ => Rejects "Missing id"
    end;
  connectUnregistered := connectUnregistered reference_lib;
  genAuthUri := genAuthUri reference_lib;
  genContainerAuthUri := genContainerAuthUri reference_lib;
  loginFromURI := loginFromURI reference_lib;
  app_webFetch := app_webFetch reference_lib;
  immutableData_fetch := immutableData_fetch reference_lib;
  registered := registered reference_lib;
  app_networkState := app_networkState reference_lib;
  auth_canAccessContainer := auth_canAccessContainer reference_lib;
  auth_refreshContainersPermissions := auth_refreshContainersPermissions reference_lib;
  auth_getContainersNames := auth_getContainersNames reference_lib;
  auth_getHomeContainer := auth_getHomeContainer reference_lib;
  auth_getContainer := auth_getContainer reference_lib;
  netObj_read := netObj_read reference_lib;
  netObj_getRaw := netObj_getRaw reference_lib;
  netObj_verify := netObj_verify reference_lib;
|}.

Definition strict : Host app_state net_obj :=
  {| safeApp := strict_lib; global_app := None |}.

Definition anonymous : AppInfo := {[ "name" := VString "App" ]}.

(** the events that create a session and log it in *)
Definition login : list event :=
  [Initialise None appInfo; Invoke (ConnectAuthorised granted_uri) 0].

(** one session, logged in, under handle 0 *)
Definition logged_in : State app_state net_obj := run reference login init.

(** the same with its [_public] container under handle 1 *)
Definition with_container : State app_state net_obj :=
  run reference [Invoke (GetContainer "_public") 0] logged_in.

(** two sessions, under handles 0 and 1 *)
Definition two_sessions : State app_state net_obj :=
  run reference [Initialise None appInfo; Initialise None appInfo] init.

(** a session whose authorisation request is in flight: promise 0,
    correlation 0 *)
Definition awaiting_grant : State app_state net_obj :=
  run reference [Invoke (Authorise insert_public None) 0] created.

End Scenario.

(** * Proofs *)

Section Framing.
Context {App NetObj : Type}.
Variable host : Host App NetObj.

Implicit Types s : State App NetObj.

(** ** The monad *)

Lemma then_resolved {A B} (m : M (State App NetObj) A) (f : A → M (State App NetObj) B)
    s a s' :
  m s = (Resolved a, s') → then_ m f s = f a s'.
Proof. unfold then_. intros ->. reflexivity. Qed.

Lemma then_rejected {A B} (m : M (State App NetObj) A) (f : A → M (State App NetObj) B)
    s e s' :
  m s = (Rejected e, s') → then_ m f s = (Rejected e, s').
Proof. unfold then_. intros ->. reflexivity. Qed.

Lemma getObj_some s h obj :
  handles s !! h = Some obj → getObj h s = (Resolved obj, s).
Proof. unfold getObj. intros ->. reflexivity. Qed.

Lemma getObj_none s h :
  handles s !! h = None → getObj h s = (Rejected UnknownHandle, s).
Proof. unfold getObj. intros ->. reflexivity. Qed.

Lemma fst_answer {A} (f : A → response) (m : M (State App NetObj) A) s :
  fst (answer f m s) = promise_map f (fst (m s)).
Proof. unfold answer. by destruct (m s). Qed.

Lemma snd_answer {A} (f : A → response) (m : M (State App NetObj) A) s :
  snd (answer f m s) = snd (m s).
Proof. unfold answer. by destruct (m s). Qed.

(** ** Framing *)

Section WithFrame.
Variable R : relation (State App NetObj).
Context `{!Frame R}.

Lemma preserves_ret {A} (a : A) : preserves R (ret a).
Proof. intros s. apply frame_refl. Qed.

Lemma preserves_throw {A} e : preserves R (throw (A := A) e).
Proof. intros s. apply frame_refl. Qed.

Lemma preserves_then {A B} (m : M (State App NetObj) A) (f : A → M (State App NetObj) B) :
  preserves R m → (∀ a, preserves R (f a)) → preserves R (then_ m f).
Proof.
  intros Hm Hf s. unfold then_. specialize (Hm s).
  destruct (m s) as [[ | a | e] s1]; simpl in *; try assumption.
  eapply frame_trans; [exact Hm | apply Hf].
Qed.

Lemma preserves_lift {A} (r : native A) : preserves R (lift r).
Proof. intros s. apply frame_refl. Qed.

Lemma preserves_getObj h : preserves R (getObj (NetObj := NetObj) h).
Proof. intros s. unfold getObj. case_match; apply frame_refl. Qed.

Lemma preserves_call_app {A} a c (f : App → native A) : preserves R (call_app a c f).
Proof.
  intros s. unfold call_app. case_match; [| apply frame_refl].
  eapply frame_trans; [apply frame_log | apply preserves_lift].
Qed.

Lemma preserves_update_app a c (f : App → native App) : preserves R (update_app a c f).
Proof.
  intros s. unfold update_app. repeat case_match; simpl.
  - eapply frame_trans; [apply frame_log | apply frame_set_apps].
  - apply frame_log.
  - apply frame_refl.
Qed.

Lemma preserves_read_app {A} a (f : App → A) : preserves R (read_app a f).
Proof. intros s. unfold read_app. case_match; apply frame_refl. Qed.

Lemma preserves_call_netObj {A} o c (f : NetObj → native A) :
  preserves R (call_netObj (App := App) o c f).
Proof.
  destruct o as [n|]; simpl; [| apply preserves_throw].
  intros s. eapply frame_trans; [apply frame_log | apply preserves_lift].
Qed.

Lemma preserves_new_app lib info : preserves R (new_app lib info).
Proof.
  intros s. unfold new_app. case_match; simpl; [| apply frame_log].
  eapply frame_trans; [apply frame_log |].
  eapply frame_trans; [apply frame_set_apps | apply frame_set_next_app].
Qed.

Lemma preserves_answer {A} (f : A → response) (m : M (State App NetObj) A) :
  preserves R m → preserves R (answer f m).
Proof. intros Hm s. unfold answer. specialize (Hm s). destruct (m s). exact Hm. Qed.

Create HintDb frame.

Hint Resolve preserves_ret preserves_throw preserves_lift preserves_getObj
  preserves_call_app preserves_update_app preserves_read_app
  preserves_call_netObj preserves_new_app : frame.

Ltac frame :=
  repeat first
    [ apply preserves_answer
    | apply preserves_then; [| intros ?]
    | solve [auto with frame]
    | case_match ].

(** the operations that neither allocate a handle nor run the authorisation
    protocol are built from framed steps *)
Lemma preserves_invoke_no_alloc op h :
  is_authorisation op = false → allocates op = false →
  preserves R (invoke host op h).
Proof.
  destruct op; simpl; try discriminate; intros _ _;
    unfold connect, connectAuthorised, webFetch, isRegistered, networkState,
      canAccessContainer, refreshContainersPermissions, getContainersNames,
      CryptoPublicSignKey.getRaw, CryptoPublicSignKey.verify; frame.
Qed.

Section WithAlloc.
Context `{!FrameAlloc R}.

Lemma preserves_genHandle a o : preserves R (genHandle a o).
Proof. intros s. apply frame_genHandle. Qed.

Hint Resolve preserves_genHandle : frame.

(** so are those that allocate, where allocation is framed too *)
Lemma preserves_invoke op h :
  is_authorisation op = false → preserves R (invoke host op h).
Proof.
  intros Hop. destruct (allocates op) eqn:Halloc;
    [| by apply preserves_invoke_no_alloc].
  destruct op; try discriminate; simpl;
    unfold getHomeContainer, getContainer; frame.
Qed.

Lemma preserves_initialise this info : preserves R (snd (initialise host this info)).
Proof. unfold initialise; simpl. frame. Qed.

End WithAlloc.

End WithFrame.

End Framing.

Section Registry.
Context {App NetObj : Type}.
Variable host : Host App NetObj.

Implicit Types s : State App NetObj.

#[export] Instance registry_grows_frame : Frame (registry_grows (App := App) (NetObj := NetObj)).
Proof.
  split.
  - intros s. split; [lia | auto].
  - intros s1 s2 s3 [Hn12 H12] [Hn23 H23]. split; [lia |].
    intros h o Ho. destruct (H23 h o Ho) as [Ho2 | ?]; [| right; lia].
    destruct (H12 h o Ho2) as [? | ?]; [by left | right; lia].
  - intros c s. split; simpl; [lia | auto].
  - intros a st s. split; simpl; [lia | auto].
  - intros n s. split; simpl; [lia | auto].
Qed.

#[export] Instance registry_grows_alloc :
  FrameAlloc (registry_grows (App := App) (NetObj := NetObj)).
Proof.
  split. intros a o s. split; simpl; [lia |].
  intros h ob. rewrite lookup_insert. case_decide; [| by left].
  intros _. right. lia.
Qed.

#[export] Instance channel_untouched_frame :
  Frame (channel_untouched (App := App) (NetObj := NetObj)).
Proof.
  split; try (intros; repeat split; reflexivity).
  intros s1 s2 s3 (? & ? & ? & ?) (? & ? & ? & ?). repeat split; congruence.
Qed.

#[export] Instance channel_untouched_alloc :
  FrameAlloc (channel_untouched (App := App) (NetObj := NetObj)).
Proof. split. intros; repeat split; reflexivity. Qed.

#[export] Instance instances_kept_frame :
  Frame (instances_kept (App := App) (NetObj := NetObj)).
Proof.
  split.
  - intros s. split; auto.
  - intros s1 s2 s3 [Ha12 Hh12] [Ha23 Hh23]. split; auto.
  - intros c s. split; auto.
  - intros a st s. split; simpl; [| auto].
    intros b Hb. rewrite lookup_insert. by case_decide.
  - intros n s. split; auto.
Qed.

Lemma freeObj_registry_grows h s : registry_grows s (freeObj h s).
Proof.
  unfold freeObj. case_match; [| apply frame_refl].
  split; simpl; [lia |].
  intros h' ob. rewrite lookup_delete. case_decide; [discriminate | by left].
Qed.

Lemma freeObj_channel_untouched h s : channel_untouched s (freeObj h s).
Proof. unfold freeObj. case_match; repeat split; reflexivity. Qed.

Lemma freeObj_lookup h s : handles (freeObj h s) !! h = None.
Proof.
  unfold freeObj. case_match eqn:Hh; simpl; [apply lookup_delete_eq | exact Hh].
Qed.

Lemma freeObj_next_handle h s : next_handle (freeObj h s) = next_handle s.
Proof. unfold freeObj. case_match; reflexivity. Qed.

(** ** The authorisation protocol *)

Lemma authorise_protocol h permissions options s :
  authorise host h permissions options s =
  authorization_protocol
    (fun obj => call_app (app obj) (CallGenAuthUri (app obj) permissions options)
                  (fun a => genAuthUri (safeApp host) a permissions options))
    AuthoriseCb h s.
Proof.
  unfold authorise, authorization_protocol, catch_, then_, sendAuthReq.
  destruct (new_promise s) as [p s0].
  destruct (getObj h s0) as [[ | obj | e] s1]; try reflexivity.
  destruct (call_app _ _ _ s1) as [[ | req | e] s2]; reflexivity.
Qed.

Lemma authoriseContainer_protocol h permissions s :
  authoriseContainer host h permissions s =
  authorization_protocol
    (fun obj => call_app (app obj) (CallGenContainerAuthUri (app obj) permissions)
                  (fun a => genContainerAuthUri (safeApp host) a permissions))
    AuthoriseContainerCb h s.
Proof.
  unfold authoriseContainer, authorization_protocol, catch_, then_, sendAuthReq.
  destruct (new_promise s) as [p s0].
  destruct (getObj h s0) as [[ | obj | e] s1]; try reflexivity.
  destruct (call_app _ _ _ s1) as [[ | req | e] s2]; reflexivity.
Qed.

Lemma callbacks_protocol_reply cb err res s :
  run_callback cb err res s = protocol_reply (cb_promise cb) err res s.
Proof. destruct cb, err; reflexivity. Qed.

(** what one run of the protocol does to the state: the operation is a new
    promise; either one request is dispatched and the promise stays pending,
    or nothing is dispatched and the promise is settled at once *)
Lemma protocol_cases (build : Obj NetObj → M (State App NetObj) AuthReq) correlate h s :
  (∀ obj, preserves only_trace (build obj)) →
  let p := next_promise s in
  let s1 := snd (authorization_protocol build correlate h s) in
  fst (authorization_protocol build correlate h s) = p ∧
  sessions_untouched s s1 ∧
  next_promise s1 = p + 1 ∧
  ((∃ obj req, handles s !! h = Some obj ∧
      promises s1 = <[p := Pending]> (promises s) ∧
      inflight s1 = <[next_request s := (req, correlate p)]> (inflight s) ∧
      next_request s1 = next_request s + 1)
   ∨ (∃ r, promises s1 = <[p := r]> (promises s) ∧
      inflight s1 = inflight s ∧ next_request s1 = next_request s)).
Proof.
  intros Hbuild p s1. subst s1. unfold authorization_protocol.
  unfold new_promise. fold p.
  set (s0 := set_next_promise (p + 1) (set_promises <[p:=Pending]> s)).
  assert (Hp0 : promises s0 !! p = Some Pending) by apply lookup_insert_eq.
  unfold getObj. change (handles s0) with (handles s).
  destruct (handles s !! h) as [obj|] eqn:Hobj.
  - pose proof (Hbuild obj s0) as (Hh & Hnh & Ha & Hna & Hpr & Hnp & Hin & Hnr).
    destruct (build obj s0) as [[ | req | e] s2]; simpl in *.
    + repeat split; try assumption. right. exists Pending. by rewrite Hpr, Hin, Hnr.
    + repeat split; try assumption. left. exists obj, req. by rewrite Hpr, Hin, Hnr.
    + unfold reject, settle. rewrite Hpr, Hp0. simpl.
      repeat split; try assumption. right. exists (Rejected e).
      rewrite Hpr, Hin, Hnr. simpl. by rewrite insert_insert_eq.
  - simpl. unfold reject, settle. rewrite Hp0. simpl.
    repeat split. right. exists (Rejected UnknownHandle). by rewrite insert_insert_eq.
Qed.

Lemma call_app_only_trace {A} a c (f : App → native A) :
  preserves only_trace (call_app (NetObj := NetObj) a c f).
Proof.
  intros s. unfold call_app. case_match; repeat split.
Qed.

End Registry.

Section WellFormed.
Context {App NetObj : Type}.
Variable host : Host App NetObj.

Implicit Types s : State App NetObj.

Lemma wf_init : wf (init (App := App) (NetObj := NetObj)).
Proof. split; simpl; intros *; rewrite lookup_empty; discriminate. Qed.

Lemma wf_frame s s' :
  wf s → registry_grows s s' → channel_untouched s s' → wf s'.
Proof.
  intros [Hh Hp Hi Ht] [Hn Hg] (Epr & Enp & Ein & Enr).
  split; rewrite ?Epr, ?Enp, ?Ein, ?Enr; try assumption.
  intros h o Ho. destruct (Hg h o Ho) as [Ho' | ?]; [| lia].
  specialize (Hh h o Ho'). lia.
Qed.

Lemma wf_protocol (build : Obj NetObj → M (State App NetObj) AuthReq) correlate h s :
  (∀ obj, preserves only_trace (build obj)) →
  (∀ p, cb_promise (correlate p) = p) →
  wf s → wf (snd (authorization_protocol build correlate h s)).
Proof.
  intros Hbuild Hcorr [Hh Hp Hi Ht].
  destruct (protocol_cases build correlate h s Hbuild)
    as (_ & (Eh & Enh & _ & _) & Enp & Hcases).
  set (p := next_promise s) in *.
  set (s1 := snd (authorization_protocol build correlate h s)) in *.
  assert (Hfresh : ∀ rid req cb, inflight s !! rid = Some (req, cb) → cb_promise cb ≠ p).
  { intros rid req cb Hrid. destruct (Hi rid req cb Hrid) as [_ Hpend].
    specialize (Hp _ _ Hpend). unfold p. lia. }
  assert (Hgrow : ∀ r q x, <[p := r]> (promises s) !! q = Some x → q < p + 1).
  { intros r q x. rewrite lookup_insert. case_decide; [lia |].
    intros Hq. specialize (Hp _ _ Hq). unfold p. lia. }
  split; rewrite ?Eh, ?Enh, ?Enp; try assumption.
  - destruct Hcases as [(obj & req & _ & Epr & _) | (r & Epr & _)];
      rewrite Epr; apply Hgrow.
  - destruct Hcases as [(obj & req & _ & Epr & Ein & Enr) | (r & Epr & Ein & Enr)];
      rewrite Epr, Ein, Enr; intros rid rq cb.
    + rewrite lookup_insert. case_decide as Hrid.
      * intros [= <- <-]. rewrite Hcorr, lookup_insert_eq. split; [lia | done].
      * intros Hin. destruct (Hi _ _ _ Hin) as [? Hpend]. split; [lia |].
        rewrite lookup_insert_ne; [done |]. intros E. by eapply Hfresh.
    + intros Hin. destruct (Hi _ _ _ Hin) as [? Hpend]. split; [done |].
      rewrite lookup_insert_ne; [done |]. intros E. by eapply Hfresh.
  - destruct Hcases as [(obj & req & _ & _ & Ein & _) | (r & _ & Ein & _)];
      rewrite Ein; [| exact Ht].
    intros rid1 rid2 rq1 rq2 cb1 cb2. rewrite !lookup_insert.
    repeat case_decide; subst; try done.
    + intros [= <- <-] Hin E. rewrite Hcorr in E. symmetry in E.
      by apply Hfresh in Hin.
    + intros Hin [= <- <-] E. rewrite Hcorr in E. by apply Hfresh in Hin.
    + apply Ht.
Qed.

Lemma deliver_sessions_untouched rid err res s :
  sessions_untouched s (deliver rid err res s) ∧
  next_promise (deliver rid err res s) = next_promise s ∧
  next_request (deliver rid err res s) = next_request s ∧
  trace (deliver rid err res s) = trace s.
Proof.
  unfold deliver. destruct (inflight s !! rid) as [[req cb]|]; [| by repeat split].
  rewrite callbacks_protocol_reply.
  unfold protocol_reply, resolve, reject, settle.
  destruct err; simpl; destruct (promises s !! cb_promise cb) as [[]|]; simpl;
    repeat split; reflexivity.
Qed.

(** a reply settles the promise its callback holds and retires the
    correlation *)
Lemma deliver_settles rid err res s req cb :
  inflight s !! rid = Some (req, cb) →
  promises s !! cb_promise cb = Some Pending →
  inflight (deliver rid err res s) = delete rid (inflight s) ∧
  promises (deliver rid err res s) =
    <[cb_promise cb :=
        match err with
        | Some _ => Rejected AuthorizationDenied
        | None => Resolved res
        end]> (promises s).
Proof.
  intros Hin Hpend. unfold deliver. rewrite Hin, callbacks_protocol_reply.
  unfold protocol_reply, resolve, reject, settle.
  destruct err; simpl; rewrite Hpend; done.
Qed.

Lemma deliver_stray rid err res s :
  inflight s !! rid = None → deliver rid err res s = s.
Proof. unfold deliver. by intros ->. Qed.

Lemma wf_deliver rid err res s : wf s → wf (deliver rid err res s).
Proof.
  intros Hwf. destruct (inflight s !! rid) as [[req cb]|] eqn:Hin;
    [| by rewrite deliver_stray].
  destruct Hwf as [Hh Hp Hi Ht].
  destruct (Hi _ _ _ Hin) as [_ Hpend].
  destruct (deliver_settles rid err res s req cb Hin Hpend) as [Ein Epr].
  destruct (deliver_sessions_untouched rid err res s)
    as ((Eh & Enh & _ & _) & Enp & Enr & _).
  split; rewrite ?Eh, ?Enh, ?Enp, ?Enr, ?Ein, ?Epr; try assumption.
  - intros q x. rewrite lookup_insert. case_decide; [subst | apply Hp].
    intros _. by eapply Hp.
  - intros rid' rq cb'. rewrite lookup_delete. case_decide; [done |].
    intros Hin'. destruct (Hi _ _ _ Hin') as [? Hpend']. split; [done |].
    rewrite lookup_insert_ne; [done |].
    intros E. by specialize (Ht _ _ _ _ _ _ Hin Hin' E).
  - intros rid1 rid2 rq1 rq2 cb1 cb2. rewrite !lookup_delete.
    repeat case_decide; try done. apply Ht.
Qed.

(** ** Steps of the process *)

Lemma snd_awaiting (m : State App NetObj → N * State App NetObj) s :
  snd (awaiting m s) = snd (m s).
Proof. unfold awaiting. by destruct (m s). Qed.

Lemma fst_awaiting (m : State App NetObj → N * State App NetObj) s :
  fst (awaiting m s) = promise_map RAuthURI (await (fst (m s)) (snd (m s))).
Proof. unfold awaiting. by destruct (m s). Qed.

Lemma invoke_authorisation_protocol op h s :
  is_authorisation op = true →
  ∃ build correlate,
    (∀ obj, preserves only_trace (build obj)) ∧
    (∀ p, cb_promise (correlate p) = p) ∧
    snd (invoke host op h s) = snd (authorization_protocol build correlate h s).
Proof.
  destruct op; try discriminate; intros _; cbv [invoke]; rewrite snd_awaiting.
  - rewrite authorise_protocol. eexists _, AuthoriseCb.
    split; [| split]; [| | reflexivity]; [| done].
    intros obj. apply call_app_only_trace.
  - rewrite authoriseContainer_protocol. eexists _, AuthoriseContainerCb.
    split; [| split]; [| | reflexivity]; [| done].
    intros obj. apply call_app_only_trace.
Qed.

Lemma step_registry_grows e s : registry_grows s (step host e s).
Proof.
  destruct e as [this info | op h | h | h | rid err res]; simpl.
  - apply (preserves_initialise host _).
  - destruct (is_authorisation op) eqn:Hop.
    + destruct (invoke_authorisation_protocol op h s Hop)
        as (build & correlate & Hbuild & _ & ->).
      destruct (protocol_cases build correlate h s Hbuild)
        as (_ & (Eh & Enh & _ & _) & _).
      split; [lia |]. intros h' o. rewrite Eh. by left.
    + by apply (preserves_invoke host _).
  - apply freeObj_registry_grows.
  - apply freeObj_registry_grows.
  - destruct (deliver_sessions_untouched rid err res s) as ((Eh & Enh & _ & _) & _).
    split; [lia |]. intros h' o. rewrite Eh. by left.
Qed.

Lemma run_registry_grows evs s : registry_grows s (run host evs s).
Proof.
  revert s. induction evs as [| e evs IH]; intros s; simpl.
  - apply frame_refl.
  - eapply frame_trans; [apply step_registry_grows | apply IH].
Qed.

Lemma wf_step e s : wf s → wf (step host e s).
Proof.
  intros Hwf. destruct e as [this info | op h | h | h | rid err res]; simpl.
  - eapply wf_frame; [done | |]; by apply (preserves_initialise host _).
  - destruct (is_authorisation op) eqn:Hop.
    + destruct (invoke_authorisation_protocol op h s Hop)
        as (build & correlate & Hbuild & Hcorr & ->).
      by apply wf_protocol.
    + eapply wf_frame; [done | |]; by apply (preserves_invoke host _).
  - eapply wf_frame; [done | apply freeObj_registry_grows | apply freeObj_channel_untouched].
  - eapply wf_frame; [done | apply freeObj_registry_grows | apply freeObj_channel_untouched].
  - by apply wf_deliver.
Qed.

Lemma wf_run evs s : wf s → wf (run host evs s).
Proof.
  revert s. induction evs as [| e evs IH]; intros s Hwf; simpl; [done |].
  by apply IH, wf_step.
Qed.

(** ** Every entry refers to an instance *)

Lemma live_init : live (init (App := App) (NetObj := NetObj)).
Proof. intros h o. simpl. by rewrite lookup_empty. Qed.

Lemma live_kept s s' : live s → instances_kept s s' → live s'.
Proof. intros Hlive [Ha Hh] h o Ho. apply Ha, (Hlive h), Hh, Ho. Qed.

Lemma live_untouched s s' : live s → sessions_untouched s s' → live s'.
Proof. intros Hlive (Eh & _ & Ea & _) h o. rewrite Eh, Ea. apply Hlive. Qed.

Lemma live_freeObj h s : live s → live (freeObj h s).
Proof.
  intros Hlive. unfold freeObj. case_match; [| done].
  intros h' ob. simpl. rewrite lookup_delete. case_decide; [done | apply Hlive].
Qed.

(** a handle for a new entry is allocated only for an instance a native call
    has just been made on *)
Lemma live_allocate {A} a c (f : App → native A) (g : A → option NetObj) s :
  live s →
  live (snd (then_ (call_app a c f) (fun x => genHandle a (g x)) s)).
Proof.
  intros Hlive. unfold then_, call_app, lift.
  destruct (apps s !! a) as [st|] eqn:Ha; [| done].
  destruct (f st) as [x | cause]; simpl; [| done].
  intros h o. simpl. rewrite lookup_insert. case_decide; [| apply Hlive].
  intros [= <-]. simpl. by rewrite Ha.
Qed.

Lemma live_initialise this info s :
  live s → live (snd (snd (initialise host this info) s)).
Proof.
  intros Hlive. unfold initialise. cbn [snd]. unfold then_, new_app, genHandle.
  destruct (initializeApp _ _) as [st | cause]; simpl; [| done].
  intros h o. simpl. rewrite lookup_insert. case_decide.
  - intros [= <-]. simpl. by rewrite lookup_insert_eq.
  - intros Ho. rewrite lookup_insert. case_decide; [done |]. by eapply Hlive.
Qed.

Lemma live_step e s : live s → live (step host e s).
Proof.
  intros Hlive. destruct e as [this info | op h | h | h | rid err res]; cbn [step].
  - by apply live_initialise.
  - destruct (is_authorisation op) eqn:Hop.
    + destruct (invoke_authorisation_protocol op h s Hop)
        as (build & correlate & Hbuild & _ & ->).
      eapply live_untouched; [done |]. by apply protocol_cases.
    + destruct (allocates op) eqn:Halloc.
      * destruct op; try discriminate; cbv [invoke]; rewrite snd_answer;
          unfold getHomeContainer, getContainer, then_ at 1, getObj;
          (destruct (handles s !! h) as [obj|]; [| done]).
        -- by apply (live_allocate _ _ _ Some).
        -- by apply (live_allocate _ _ _ Some).
      * eapply live_kept; [done |]. by apply (preserves_invoke_no_alloc host _).
  - by apply live_freeObj.
  - by apply live_freeObj.
  - eapply live_untouched; [done |]. apply deliver_sessions_untouched.
Qed.

(** in a state the process can reach, a handle that resolves refers to a
    native instance that exists *)
Lemma live_run evs s : live s → live (run host evs s).
Proof.
  revert s. induction evs as [| e evs IH]; intros s Hlive; simpl; [done |].
  by apply IH, live_step.
Qed.

(** a pending correlation stays in flight until its own reply arrives *)
Lemma step_keeps_inflight e s rid x :
  wf s → inflight s !! rid = Some x → is_reply rid e = false →
  inflight (step host e s) !! rid = Some x.
Proof.
  intros Hwf Hin Hne.
  destruct e as [this info | op h | h | h | rid' err res]; cbn [step].
  - destruct (preserves_initialise host channel_untouched this info s)
      as (_ & _ & -> & _). done.
  - destruct (is_authorisation op) eqn:Hop.
    + destruct (invoke_authorisation_protocol op h s Hop)
        as (build & correlate & Hbuild & _ & ->).
      destruct (protocol_cases build correlate h s Hbuild) as (_ & _ & _ & Hcases).
      destruct Hcases as [(obj & req & _ & _ & -> & _) | (r & _ & -> & _)]; [| done].
      rewrite lookup_insert_ne; [done |].
      destruct x as [rq cb]. destruct (wf_inflight _ Hwf _ _ _ Hin). lia.
    + destruct (preserves_invoke host channel_untouched op h Hop s)
        as (_ & _ & -> & _). done.
  - destruct (freeObj_channel_untouched h s) as (_ & _ & Ein & _).
    unfold free. by rewrite Ein.
  - destruct (freeObj_channel_untouched h s) as (_ & _ & Ein & _).
    unfold CryptoPublicSignKey.free. by rewrite Ein.
  - assert (rid' ≠ rid) by (simpl in Hne; by apply N.eqb_neq).
    destruct (inflight s !! rid') as [[rq cb]|] eqn:Hin';
      [| by rewrite deliver_stray].
    destruct (wf_inflight _ Hwf _ _ _ Hin') as [_ Hpend].
    destruct (deliver_settles rid' err res s rq cb Hin' Hpend) as [-> _].
    by rewrite lookup_delete_ne.
Qed.

Lemma run_keeps_inflight evs s rid x :
  wf s → inflight s !! rid = Some x → no_reply rid evs = true →
  inflight (run host evs s) !! rid = Some x.
Proof.
  revert s. induction evs as [| e evs IH]; intros s Hwf Hin Hno; simpl; [done |].
  simpl in Hno. apply andb_prop in Hno as [He Hno].
  apply IH; [by apply wf_step | | done].
  apply step_keeps_inflight; [done | done |]. by apply negb_true_iff.
Qed.

End WellFormed.

(** * The claims *)

Section Claims.
Context {App NetObj : Type}.
Variable host : Host App NetObj.

Implicit Types s : State App NetObj.

(** ** Unknown handles *)

Lemma protocol_unknown (build : Obj NetObj → M (State App NetObj) AuthReq) correlate h s :
  handles s !! h = None →
  let r := authorization_protocol build correlate h s in
  await (fst r) (snd r) = Rejected UnknownHandle ∧
  sessions_untouched s (snd r) ∧ trace (snd r) = trace s ∧
  inflight (snd r) = inflight s.
Proof.
  intros Hh. unfold authorization_protocol, new_promise, getObj. simpl.
  rewrite Hh. unfold reject, settle, await. simpl.
  rewrite lookup_insert_eq. simpl. rewrite lookup_insert_eq. by repeat split.
Qed.

(** a handle the registry cannot resolve fails every operation, and no
    native call is made on its behalf *)
Lemma invoke_unknown op h s :
  handles s !! h = None →
  fst (invoke host op h s) = Rejected UnknownHandle ∧
  trace (snd (invoke host op h s)) = trace s.
Proof.
  intros Hh. pose proof (getObj_none s h Hh) as Hget.
  destruct op; cbv [invoke];
    try (rewrite fst_answer, snd_answer;
         unfold connect, connectAuthorised, webFetch, isRegistered, networkState,
           canAccessContainer, refreshContainersPermissions, getContainersNames,
           getHomeContainer, getContainer, CryptoPublicSignKey.getRaw,
           CryptoPublicSignKey.verify;
         by erewrite then_rejected by exact Hget).
  - rewrite fst_awaiting, snd_awaiting, authorise_protocol.
    destruct (protocol_unknown
      (fun obj => call_app (app obj) (CallGenAuthUri (app obj) permissions options)
         (fun a => genAuthUri (safeApp host) a permissions options))
      AuthoriseCb h s Hh) as (-> & _ & -> & _). done.
  - rewrite fst_awaiting, snd_awaiting, authoriseContainer_protocol.
    destruct (protocol_unknown
      (fun obj => call_app (app obj) (CallGenContainerAuthUri (app obj) permissions)
         (fun a => genContainerAuthUri (safeApp host) a permissions))
      AuthoriseContainerCb h s Hh) as (-> & _ & -> & _). done.
Qed.

Lemma freed_stays_unknown h s evs :
  evs = [] ∨ h < next_handle s →
  handles (run host evs (freeObj h s)) !! h = None.
Proof.
  intros [-> | Hissued]; [apply freeObj_lookup |].
  destruct (run_registry_grows host evs (freeObj h s)) as [_ Hgrow].
  destruct (handles (run host evs (freeObj h s)) !! h) as [o|] eqn:Hh; [| done].
  destruct (Hgrow h o Hh) as [Hold | [Hnew _]].
  - by rewrite freeObj_lookup in Hold.
  - rewrite freeObj_next_handle in Hnew. lia.
Qed.

(** C1.  Once [free(H)] has been called - through either module - the entry
    of [H] is gone: at once for any token, and for good for a handle the
    registry issued, whatever happens in between.  From then on resolving [H]
    fails with [UnknownHandle], and so does every public operation invoked
    with [H]. *)
Theorem free_makes_handle_unknown (s : State App NetObj) (h : Handle)
    (evs : list event) (op : operation) (released : State App NetObj) :
  released = free h s ∨ released = CryptoPublicSignKey.free h s →
  evs = [] ∨ h < next_handle s →
  let s' := run host evs released in
  handles s' !! h = None ∧
  getObj h s' = (Rejected UnknownHandle, s') ∧
  fst (invoke host op h s') = Rejected UnknownHandle.
Proof.
  intros Hrel Hissued s'.
  assert (Hgone : handles s' !! h = None).
  { subst s'. destruct Hrel as [-> | ->]; by apply freed_stays_unknown. }
  split; [done |]. split; [by apply getObj_none |].
  by apply invoke_unknown.
Qed.

(** ** The signing-key adapter *)

(** C9.  [getRaw] and [verify] resolve the handle first.  When resolution
    fails they fail with the registry's failure (the adapter's invalid handle
    is the registry's [UnknownHandle]) and the state is untouched: no native
    call was made.  When the handle resolves to a native object, exactly the
    corresponding native operation is invoked on it and its settlement is
    the operation's: its value on success, [OperationFailed] with the native
    cause when it rejects. *)
Theorem signing_key_adapter (s : State App NetObj) (h : Handle) (data : Bytes) :
  (handles s !! h = None →
     CryptoPublicSignKey.getRaw host h s = (Rejected UnknownHandle, s) ∧
     CryptoPublicSignKey.verify host h data s = (Rejected UnknownHandle, s)) ∧
  (∀ obj key, handles s !! h = Some obj → netObj obj = Some key →
     (∀ raw, netObj_getRaw (safeApp host) key = Resolves raw →
        CryptoPublicSignKey.getRaw host h s = (Resolved raw, log (CallGetRaw key) s)) ∧
     (∀ cause, netObj_getRaw (safeApp host) key = Rejects cause →
        CryptoPublicSignKey.getRaw host h s =
          (Rejected (OperationFailed cause), log (CallGetRaw key) s)) ∧
     (∀ verified, netObj_verify (safeApp host) key data = Resolves verified →
        CryptoPublicSignKey.verify host h data s =
          (Resolved verified, log (CallVerify key data) s)) ∧
     (∀ cause, netObj_verify (safeApp host) key data = Rejects cause →
        CryptoPublicSignKey.verify host h data s =
          (Rejected (OperationFailed cause), log (CallVerify key data) s))).
Proof.
  split.
  - intros Hh. pose proof (getObj_none s h Hh) as Hget.
    unfold CryptoPublicSignKey.getRaw, CryptoPublicSignKey.verify.
    split; by erewrite then_rejected by exact Hget.
  - intros obj key Hh Hkey. pose proof (getObj_some s h obj Hh) as Hget.
    unfold CryptoPublicSignKey.getRaw, CryptoPublicSignKey.verify.
    repeat split; intros x Hx; erewrite then_resolved by exact Hget;
      rewrite Hkey; unfold call_netObj, lift; by rewrite Hx.
Qed.

(** ** The [scope] of [appInfo] *)

(** C10.  [initialise] writes the [scope] property of the caller's [appInfo]
    whatever it held: the sender's URL when [this] carries a sender, [null]
    otherwise.  Every other property is left as it was, and the object that
    reaches [initializeApp] is the one already written to. *)
Theorem initialise_overwrites_scope (this : option ThisContext)
    (appInfo : AppInfo) (s : State App NetObj) :
  let appInfo' := fst (initialise host this appInfo) in
  appInfo' !! "scope" =
    Some (match this with
          | Some {| sender := Some sd |} => VString (getURL sd)
          | _ => VNull
          end) ∧
  (∀ k, k ≠ "scope" → appInfo' !! k = appInfo !! k) ∧
  trace (snd (snd (initialise host this appInfo) s)) =
    trace s ++ [CallInitializeApp appInfo'].
Proof.
  unfold initialise. simpl. split; [| split].
  - destruct this as [[[sd|]]|]; simpl; apply lookup_insert_eq.
  - intros k Hk. destruct this as [[[sd|]]|]; simpl; by rewrite lookup_insert_ne.
  - unfold then_, new_app, genHandle.
    destruct (initializeApp _ _); reflexivity.
Qed.

(** ** [webFetch] *)

(** C7.  The handler that should fetch the file's content names [app], which
    the module does not bind.  In a host whose global scope has no [app]
    either, [webFetch] resolves for no handle, URL and state; where the
    lookup of the URL succeeds, it rejects with a [ReferenceError]. *)
Theorem webFetch_never_resolves (h : Handle) (url : string) (s : State App NetObj) :
  global_app host = None →
  (∀ content, fst (webFetch host h url s) ≠ Resolved content) ∧
  (∀ obj a f, handles s !! h = Some obj → apps s !! app obj = Some a →
     app_webFetch (safeApp host) a url = Resolves f →
     fst (webFetch host h url s) = Rejected (ReferenceError "app")).
Proof.
  intros Hglobal. unfold webFetch. rewrite Hglobal. split.
  - intros content. unfold then_, throw.
    destruct (getObj h s) as [[ | obj | e] s1]; [done | | done].
    destruct (call_app _ _ _ s1) as [[ | f | e] s2]; done.
  - intros obj a f Hh Ha Hf.
    erewrite then_resolved by by apply getObj_some.
    unfold then_, call_app, lift, throw. rewrite Ha, Hf. reflexivity.
Qed.

(** ** The two authorisation requests *)

(** C8.  [authorise] and [authoriseContainer] are the same protocol run with
    two request builders - [genAuthUri(permissions, options)] and
    [genContainerAuthUri(permissions)] - and their callbacks are the same
    reply step: the same promise is created, the same failures settle it
    before any dispatch, one request is dispatched otherwise, and a reply
    resolves it with the URI or rejects it with the same error. *)
Theorem authoriseContainer_same_protocol (h : Handle) (permissions : PermissionSet)
    (options : option Options) (s : State App NetObj) :
  authorise host h permissions options s =
    authorization_protocol
      (fun obj => call_app (app obj) (CallGenAuthUri (app obj) permissions options)
                    (fun a => genAuthUri (safeApp host) a permissions options))
      AuthoriseCb h s ∧
  authoriseContainer host h permissions s =
    authorization_protocol
      (fun obj => call_app (app obj) (CallGenContainerAuthUri (app obj) permissions)
                    (fun a => genContainerAuthUri (safeApp host) a permissions))
      AuthoriseContainerCb h s ∧
  (∀ p err res (s' : State App NetObj),
     authorise_callback p err res s' = protocol_reply p err res s' ∧
     authoriseContainer_callback p err res s' = protocol_reply p err res s').
Proof.
  split; [apply authorise_protocol |]. split; [apply authoriseContainer_protocol |].
  intros p err res s'. split.
  - apply (callbacks_protocol_reply (AuthoriseCb p)).
  - apply (callbacks_protocol_reply (AuthoriseContainerCb p)).
Qed.

(** ** One run of [authorise] *)

Lemma authorise_dispatch h permissions options s obj a req :
  handles s !! h = Some obj → apps s !! app obj = Some a →
  genAuthUri (safeApp host) a permissions options = Resolves req →
  authorise host h permissions options s =
    (next_promise s,
     log (CallSendAuthReq req)
       (set_next_request (next_request s + 1)
          (set_inflight (insert (next_request s) (req, AuthoriseCb (next_promise s)))
             (log (CallGenAuthUri (app obj) permissions options)
                (set_next_promise (next_promise s + 1)
                   (set_promises (insert (next_promise s) Pending) s)))))).
Proof.
  intros Hh Ha Hreq.
  unfold authorise, new_promise, catch_, then_, getObj, call_app, lift, sendAuthReq.
  simpl. rewrite Hh. simpl. rewrite Ha, Hreq. reflexivity.
Qed.

Lemma authorise_refused h permissions options s obj a cause :
  handles s !! h = Some obj → apps s !! app obj = Some a →
  genAuthUri (safeApp host) a permissions options = Rejects cause →
  authorise host h permissions options s =
    (next_promise s,
     set_promises (insert (next_promise s) (Rejected (OperationFailed cause)))
       (log (CallGenAuthUri (app obj) permissions options)
          (set_next_promise (next_promise s + 1)
             (set_promises (insert (next_promise s) Pending) s)))).
Proof.
  intros Hh Ha Hreq.
  unfold authorise, new_promise, catch_, then_, getObj, call_app, lift, sendAuthReq.
  simpl. rewrite Hh. simpl. rewrite Ha, Hreq. simpl.
  unfold reject, settle. simpl. rewrite lookup_insert_eq. reflexivity.
Qed.

Lemma wf_authorise h permissions options s :
  wf s → wf (snd (authorise host h permissions options s)).
Proof.
  intros Hwf. rewrite authorise_protocol. apply wf_protocol; [| done | done].
  intros obj. apply call_app_only_trace.
Qed.

Lemma authorise_sessions_untouched h permissions options s :
  sessions_untouched s (snd (authorise host h permissions options s)).
Proof.
  rewrite authorise_protocol.
  apply protocol_cases. intros obj. apply call_app_only_trace.
Qed.

Lemma dispatches_log c s :
  dispatches (log c s) = (dispatches s + if is_dispatch c then 1 else 0)%nat.
Proof.
  unfold dispatches, log. simpl. rewrite List.filter_app, length_app. simpl.
  by destruct (is_dispatch c).
Qed.

(** a reply to a correlation in flight settles its promise, whatever else
    happened since the dispatch *)
Lemma reply_settles evs rid req cb err res s1 :
  wf s1 → inflight s1 !! rid = Some (req, cb) → no_reply rid evs = true →
  let s2 := run host evs s1 in
  await (cb_promise cb) s2 = Pending ∧
  await (cb_promise cb) (deliver rid err res s2) =
    match err with
    | Some _ => Rejected AuthorizationDenied
    | None => Resolved res
    end.
Proof.
  intros Hwf Hin Hno s2.
  assert (Hwf2 : wf s2) by by apply wf_run.
  assert (Hin2 : inflight s2 !! rid = Some (req, cb)) by by apply run_keeps_inflight.
  destruct (wf_inflight _ Hwf2 _ _ _ Hin2) as [_ Hpend].
  destruct (deliver_settles rid err res s2 req cb Hin2 Hpend) as [_ Epr].
  unfold await. rewrite Hpend, Epr, lookup_insert_eq. done.
Qed.

(** C2.  When the callback that [authorise] handed to the channel is invoked
    with an error, the promise of that [authorise] rejects with
    [AuthorizationDenied].  Neither the call of [authorise] nor the reply
    touches the registry or any native instance: the session is in the state
    it was in. *)
Theorem authorise_denied (history evs : list event) (h : Handle)
    (permissions : PermissionSet) (options : option Options)
    (rid : RequestId) (req : AuthReq) (err : string) (res : option AuthURI) :
  let s := run host history init in
  let p := fst (authorise host h permissions options s) in
  let s1 := snd (authorise host h permissions options s) in
  inflight s1 !! rid = Some (req, AuthoriseCb p) →
  no_reply rid evs = true →
  let s2 := run host evs s1 in
  let s3 := deliver rid (Some err) res s2 in
  await p s3 = Rejected AuthorizationDenied ∧
  sessions_untouched s s1 ∧
  sessions_untouched s2 s3.
Proof.
  intros s p s1 Hin Hno s2 s3.
  assert (Hwf1 : wf s1) by apply wf_authorise, wf_run, wf_init.
  split; [| split].
  - apply (reply_settles evs rid req (AuthoriseCb p) (Some err) res s1); done.
  - apply authorise_sessions_untouched.
  - apply deliver_sessions_untouched.
Qed.

(** C3.  A granted [authorise] resolves with the URI the authenticator
    replied with.  Fed into [connectAuthorised] on the same session - where
    the library logs that URI in, leaving the instance connected and
    registered - the call resolves with the same handle, the session's
    instance is the logged-in one, and [isRegistered] resolves to [true]. *)
Theorem authorise_connectAuthorised_roundtrip (s : State App NetObj)
    (session : Handle) (obj : Obj NetObj) (a a' : App)
    (permissions : PermissionSet) (options : option Options)
    (req : AuthReq) (uri : AuthURI) :
  handles s !! session = Some obj →
  apps s !! app obj = Some a →
  genAuthUri (safeApp host) a permissions options = Resolves req →
  loginFromURI (safeApp host) a uri = Resolves a' →
  registered (safeApp host) a' = true →
  app_networkState (safeApp host) a' = "Connected" →
  let p := fst (authorise host session permissions options s) in
  let s1 := snd (authorise host session permissions options s) in
  let s2 := deliver (next_request s) None (Some uri) s1 in
  let s3 := snd (connectAuthorised host session uri s2) in
  await p s1 = Pending ∧
  await p s2 = Resolved (Some uri) ∧
  fst (connectAuthorised host session uri s2) = Resolved session ∧
  apps s3 !! app obj = Some a' ∧
  isRegistered host session s3 = (Resolved true, s3) ∧
  networkState host session s3 = (Resolved "Connected", s3).
Proof.
  intros Hh Ha Hreq Hlogin Hreg Hnet.
  rewrite (authorise_dispatch _ _ _ _ _ _ _ Hh Ha Hreq). cbn [fst snd].
  set (s1 := log _ _).
  assert (Hin1 : inflight s1 !! next_request s = Some (req, AuthoriseCb (next_promise s)))
    by apply lookup_insert_eq.
  assert (Hp1 : promises s1 !! next_promise s = Some Pending) by apply lookup_insert_eq.
  destruct (deliver_settles (next_request s) None (Some uri) s1 _ _ Hin1 Hp1) as [_ Epr].
  destruct (deliver_sessions_untouched (next_request s) None (Some uri) s1)
    as ((Eh & _ & Eapps & _) & _).
  set (s2 := deliver _ _ _ s1) in *. simpl in Epr, Eh, Eapps.
  assert (Hget2 : getObj session s2 = (Resolved obj, s2))
    by (apply getObj_some; by rewrite Eh).
  assert (Hconn : connectAuthorised host session uri s2 =
     (Resolved session,
      set_apps (insert (app obj) a') (log (CallLoginFromURI (app obj) uri) s2))).
  { unfold connectAuthorised. rewrite (then_resolved _ _ _ _ _ Hget2).
    unfold then_, update_app, ret. by rewrite Eapps, Ha, Hlogin. }
  rewrite Hconn. cbn [fst snd]. set (s3 := set_apps _ _).
  assert (Hget3 : getObj session s3 = (Resolved obj, s3))
    by (apply getObj_some; simpl; by rewrite Eh).
  assert (Ha3 : apps s3 !! app obj = Some a') by apply lookup_insert_eq.
  repeat split.
  - unfold await. by rewrite Hp1.
  - unfold await. by rewrite Epr, lookup_insert_eq.
  - exact Ha3.
  - unfold isRegistered. rewrite (then_resolved _ _ _ _ _ Hget3).
    unfold read_app. by rewrite Ha3, Hreg.
  - unfold networkState. rewrite (then_resolved _ _ _ _ _ Hget3).
    unfold read_app. by rewrite Ha3, Hnet.
Qed.

(** C4, as the code has it.  On a valid session handle [authorise] first
    has the library encode the request.  When that succeeds exactly one
    request is dispatched, and the returned promise is pending for as long as
    the reply to that request has not arrived - forever, if it never does -
    and is settled by the reply.  When the library refuses the request nothing
    is dispatched and the promise rejects at once with the library's failure. *)
Theorem authorise_dispatches_once (history : list event) (h : Handle)
    (obj : Obj NetObj) (permissions : PermissionSet) (options : option Options) :
  let s := run host history init in
  handles s !! h = Some obj →
  let p := fst (authorise host h permissions options s) in
  let s1 := snd (authorise host h permissions options s) in
  let rid := next_request s in
  ∃ a, apps s !! app obj = Some a ∧
  match genAuthUri (safeApp host) a permissions options with
  | Resolves req =>
      dispatches s1 = S (dispatches s) ∧
      inflight s !! rid = None ∧
      inflight s1 = <[rid := (req, AuthoriseCb p)]> (inflight s) ∧
      (∀ evs, no_reply rid evs = true → await p (run host evs s1) = Pending) ∧
      (∀ evs err res, no_reply rid evs = true →
         await p (deliver rid err res (run host evs s1)) =
           match err with
           | Some _ => Rejected AuthorizationDenied
           | None => Resolved res
           end)
  | Rejects cause =>
      dispatches s1 = dispatches s ∧
      inflight s1 = inflight s ∧
      await p s1 = Rejected (OperationFailed cause)
  end.
Proof.
  intros s Hh p s1 rid.
  assert (Hwf : wf s) by apply wf_run, wf_init.
  assert (Hwf1 : wf s1) by by apply wf_authorise.
  destruct (live_run host history init live_init h obj Hh) as [a Ha].
  exists a. split; [exact Ha |].
  subst p s1. destruct (genAuthUri _ _ _ _) as [req | cause] eqn:Hreq.
  - rewrite (authorise_dispatch _ _ _ _ _ _ _ Hh Ha Hreq) in *. cbn [fst snd] in *.
    set (s1 := log _ _) in *.
    assert (Hin1 : inflight s1 !! rid = Some (req, AuthoriseCb (next_promise s)))
      by apply lookup_insert_eq.
    split; [| split; [| split; [| split]]].
    + unfold s1. rewrite dispatches_log. simpl.
      unfold dispatches. simpl. rewrite List.filter_app, length_app. simpl. lia.
    + destruct (inflight s !! rid) as [[rq cb]|] eqn:Hin; [| done].
      destruct (wf_inflight _ Hwf _ _ _ Hin). unfold rid in *. lia.
    + reflexivity.
    + intros evs Hno.
      by apply (reply_settles evs rid req (AuthoriseCb (next_promise s)) None None s1).
    + intros evs err res Hno.
      by apply (reply_settles evs rid req (AuthoriseCb (next_promise s)) err res s1).
  - rewrite (authorise_refused _ _ _ _ _ _ _ Hh Ha Hreq). cbn [fst snd].
    split; [| split].
    + unfold dispatches. simpl. rewrite List.filter_app, length_app. simpl. lia.
    + reflexivity.
    + unfold await. simpl. by rewrite lookup_insert_eq.
Qed.

(** C5, as the code has it.  The four queries only read: an unknown handle
    fails them with the registry's [UnknownHandle] and leaves the state as it
    is; on a known handle [isRegistered] and [networkState] resolve with the
    current value of the instance's property, connected or not, and leave the
    state as it is, while [canAccessContainer] and [getContainersNames] settle
    as the native call does and leave nothing behind but the record of that
    call. *)
Theorem queries_only_read (s : State App NetObj) (h : Handle) (name : string)
    (permissions : option (list string)) :
  (handles s !! h = None →
     isRegistered host h s = (Rejected UnknownHandle, s) ∧
     networkState host h s = (Rejected UnknownHandle, s) ∧
     canAccessContainer host h name permissions s = (Rejected UnknownHandle, s) ∧
     getContainersNames host h s = (Rejected UnknownHandle, s)) ∧
  (∀ obj a, handles s !! h = Some obj → apps s !! app obj = Some a →
     isRegistered host h s = (Resolved (registered (safeApp host) a), s) ∧
     networkState host h s = (Resolved (app_networkState (safeApp host) a), s) ∧
     canAccessContainer host h name permissions s =
       (settlement (auth_canAccessContainer (safeApp host) a name permissions),
        log (CallCanAccessContainer (app obj) name permissions) s) ∧
     getContainersNames host h s =
       (settlement (auth_getContainersNames (safeApp host) a),
        log (CallGetContainersNames (app obj)) s)).
Proof.
  split.
  - intros Hh. pose proof (getObj_none s h Hh) as Hget.
    unfold isRegistered, networkState, canAccessContainer, getContainersNames.
    repeat split; by erewrite then_rejected by exact Hget.
  - intros obj a Hh Ha. pose proof (getObj_some s h obj Hh) as Hget.
    unfold isRegistered, networkState, canAccessContainer, getContainersNames.
    repeat split; erewrite then_resolved by exact Hget;
      unfold read_app, call_app, lift; by rewrite Ha.
Qed.

(** C6.  [initialise] resolves with a handle that is not in use, registered
    for a new native instance; the only native call it makes is
    [initializeApp], and it touches neither the promises nor the channel.
    [connect] with that handle resolves with the same handle and leaves the
    instance as [connectUnregistered] made it - connected and unregistered -
    so that [isRegistered] resolves to [false]. *)
Theorem initialise_then_connect (history : list event) (this : option ThisContext)
    (appInfo : AppInfo) (a0 a1 : App) :
  let s := run host history init in
  let appInfo' := fst (initialise host this appInfo) in
  initializeApp (safeApp host) appInfo' = Resolves a0 →
  connectUnregistered (safeApp host) a0 = Resolves a1 →
  registered (safeApp host) a1 = false →
  app_networkState (safeApp host) a1 = "Connected" →
  let H1 := next_handle s in
  let s1 := snd (snd (initialise host this appInfo) s) in
  let s2 := snd (connect host H1 s1) in
  fst (snd (initialise host this appInfo) s) = Resolved H1 ∧
  handles s !! H1 = None ∧
  handles s1 !! H1 = Some {| app := next_app s; netObj := None |} ∧
  apps s1 !! next_app s = Some a0 ∧
  trace s1 = trace s ++ [CallInitializeApp appInfo'] ∧
  channel_untouched s s1 ∧
  fst (connect host H1 s1) = Resolved H1 ∧
  apps s2 !! next_app s = Some a1 ∧
  trace s2 = trace s1 ++ [CallConnectUnregistered (next_app s)] ∧
  isRegistered host H1 s2 = (Resolved false, s2) ∧
  networkState host H1 s2 = (Resolved "Connected", s2).
Proof.
  intros s appInfo' Hinit Hconn Hreg Hnet H1.
  assert (Hwf : wf s) by apply wf_run, wf_init.
  assert (Hrun : snd (initialise host this appInfo) s =
    (Resolved H1,
     set_next_handle (H1 + 1)
       (set_handles (insert H1 {| app := next_app s; netObj := None |})
          (set_next_app (next_app s + 1)
             (set_apps (insert (next_app s) a0)
                (log (CallInitializeApp appInfo') s)))))).
  { unfold initialise. cbn [snd]. unfold then_, new_app, genHandle.
    fold appInfo'. unfold initialise in appInfo'. cbn [fst] in appInfo'.
    fold appInfo'. by rewrite Hinit. }
  rewrite Hrun. cbn [fst snd]. set (s1 := set_next_handle _ _).
  assert (Hh1 : handles s1 !! H1 = Some {| app := next_app s; netObj := None |})
    by apply lookup_insert_eq.
  assert (Ha1 : apps s1 !! next_app s = Some a0) by apply lookup_insert_eq.
  assert (Hc : connect host H1 s1 =
    (Resolved H1,
     set_apps (insert (next_app s) a1) (log (CallConnectUnregistered (next_app s)) s1))).
  { unfold connect. rewrite (then_resolved _ _ _ _ _ (getObj_some _ _ _ Hh1)).
    unfold then_, update_app, ret. cbn [app]. by rewrite Ha1, Hconn. }
  rewrite Hc. cbn [fst snd]. set (s2 := set_apps _ _).
  assert (Hh2 : handles s2 !! H1 = Some {| app := next_app s; netObj := None |})
    by exact Hh1.
  assert (Ha2 : apps s2 !! next_app s = Some a1) by apply lookup_insert_eq.
  repeat split; try done.
  - destruct (handles s !! H1) as [o|] eqn:Hold; [| done].
    pose proof (wf_handles _ Hwf _ _ Hold). unfold H1 in *. lia.
  - unfold isRegistered. rewrite (then_resolved _ _ _ _ _ (getObj_some _ _ _ Hh2)).
    unfold read_app. cbn [app]. by rewrite Ha2, Hreg.
  - unfold networkState. rewrite (then_resolved _ _ _ _ _ (getObj_some _ _ _ Hh2)).
    unfold read_app. cbn [app]. by rewrite Ha2, Hnet.
Qed.

End Claims.

(** * The claims on the reference host *)

Import Reference.

Lemma free_makes_handle_unknown_witness :
  let s' := run reference
              [Initialise None appInfo; Invoke GetContainersNames 0]
              (free 0 created) in
  handles s' !! 0 = None ∧
  getObj 0 s' = (Rejected UnknownHandle, s') ∧
  fst (invoke reference IsRegistered 0 s') = Rejected UnknownHandle.
Proof.
  apply (free_makes_handle_unknown reference created 0
           [Initialise None appInfo; Invoke GetContainersNames 0]
           IsRegistered (free 0 created)).
  - left. reflexivity.
  - right. vm_compute. reflexivity.
Defined.

Lemma signing_key_adapter_witness :
  CryptoPublicSignKey.getRaw reference 1 with_key =
    (Resolved [Byte.x01; Byte.x02],
     log (CallGetRaw (SignKey [Byte.x01; Byte.x02])) with_key) ∧
  CryptoPublicSignKey.verify reference 1 [] with_key =
    (Rejected (OperationFailed "Verification failed"),
     log (CallVerify (SignKey [Byte.x01; Byte.x02]) []) with_key).
Proof.
  pose proof (proj2 (signing_key_adapter reference with_key 1 [])
                {| app := 0; netObj := Some (SignKey [Byte.x01; Byte.x02]) |}
                (SignKey [Byte.x01; Byte.x02]) eq_refl eq_refl)
    as (Hraw & _ & _ & Hverify).
  split.
  - apply Hraw. reflexivity.
  - apply Hverify. reflexivity.
Defined.

Lemma initialise_overwrites_scope_witness :
  let caller := <["scope" := VString "safe://forged"]> appInfo in
  let appInfo' := fst (initialise reference None caller) in
  appInfo' !! "scope" = Some VNull ∧
  appInfo' !! "id" = caller !! "id".
Proof.
  pose proof (initialise_overwrites_scope reference None
                (<["scope" := VString "safe://forged"]> appInfo) init)
    as (Hscope & Hrest & _).
  split.
  - exact Hscope.
  - apply Hrest. discriminate.
Defined.

Lemma webFetch_never_resolves_witness :
  fst (webFetch reference 0 "safe://site/index.html" created) =
    Rejected (ReferenceError "app").
Proof.
  apply (proj2 (webFetch_never_resolves reference 0 "safe://site/index.html"
                  created eq_refl) session fresh_app
           {| dataMapName := "safe://site/index.html" |});
    reflexivity.
Defined.

Lemma authorise_denied_witness :
  let s := run reference [Initialise None appInfo] init in
  let p := fst (authorise reference 0 insert_public (Some {| own_container := true |}) s) in
  let s1 := snd (authorise reference 0 insert_public (Some {| own_container := true |}) s) in
  let s2 := run reference [Invoke IsRegistered 0] s1 in
  let s3 := deliver 0 (Some "denied") None s2 in
  await p s3 = Rejected AuthorizationDenied ∧
  sessions_untouched s s1 ∧
  sessions_untouched s2 s3.
Proof.
  apply (authorise_denied reference [Initialise None appInfo] [Invoke IsRegistered 0]
           0 insert_public (Some {| own_container := true |}) 0
           "safe-auth://request" "denied" None).
  - vm_compute. reflexivity.
  - reflexivity.
Defined.

Lemma authorise_connectAuthorised_roundtrip_witness :
  let p := fst (authorise reference 0 insert_public None created) in
  let s1 := snd (authorise reference 0 insert_public None created) in
  let s2 := deliver (next_request created) None (Some granted_uri) s1 in
  let s3 := snd (connectAuthorised reference 0 granted_uri s2) in
  await p s1 = Pending ∧
  await p s2 = Resolved (Some granted_uri) ∧
  fst (connectAuthorised reference 0 granted_uri s2) = Resolved 0 ∧
  apps s3 !! 0 = Some logged_in_app ∧
  isRegistered reference 0 s3 = (Resolved true, s3) ∧
  networkState reference 0 s3 = (Resolved "Connected", s3).
Proof.
  apply (authorise_connectAuthorised_roundtrip reference created 0 session
           fresh_app logged_in_app insert_public None
           "safe-auth://request" granted_uri);
    vm_compute; reflexivity.
Defined.

Lemma authorise_dispatches_once_witness :
  let s := run reference [Initialise None appInfo] init in
  let p := fst (authorise reference 0 insert_public None s) in
  let s1 := snd (authorise reference 0 insert_public None s) in
  ∃ a, apps s !! 0 = Some a ∧
  match genAuthUri reference_lib a insert_public None with
  | Resolves req =>
      dispatches s1 = S (dispatches s) ∧
      inflight s !! 0 = None ∧
      inflight s1 = <[0 := (req, AuthoriseCb p)]> (inflight s) ∧
      (∀ evs, no_reply 0 evs = true → await p (run reference evs s1) = Pending) ∧
      (∀ evs err res, no_reply 0 evs = true →
         await p (deliver 0 err res (run reference evs s1)) =
           match err with
           | Some _ => Rejected AuthorizationDenied
           | None => Resolved res
           end)
  | Rejects cause =>
      dispatches s1 = dispatches s ∧
      inflight s1 = inflight s ∧
      await p s1 = Rejected (OperationFailed cause)
  end.
Proof.
  exact (authorise_dispatches_once reference [Initialise None appInfo] 0 session
           insert_public None eq_refl).
Defined.

Lemma queries_only_read_witness :
  isRegistered reference 0 created = (Resolved false, created) ∧
  networkState reference 0 created = (Resolved "Init", created) ∧
  canAccessContainer reference 0 "_public" None created =
    (Rejected (OperationFailed "No access"),
     log (CallCanAccessContainer 0 "_public" None) created) ∧
  getContainersNames reference 0 created =
    (Rejected (OperationFailed "No access"), log (CallGetContainersNames 0) created).
Proof.
  exact (proj2 (queries_only_read reference created 0 "_public" None)
           session fresh_app eq_refl eq_refl).
Defined.

Lemma initialise_then_connect_witness :
  let s := run reference [] init in
  let appInfo' := fst (initialise reference None appInfo) in
  let H1 := next_handle s in
  let s1 := snd (snd (initialise reference None appInfo) s) in
  let s2 := snd (connect reference H1 s1) in
  fst (snd (initialise reference None appInfo) s) = Resolved H1 ∧
  handles s !! H1 = None ∧
  handles s1 !! H1 = Some {| app := next_app s; netObj := None |} ∧
  apps s1 !! next_app s = Some fresh_app ∧
  trace s1 = trace s ++ [CallInitializeApp appInfo'] ∧
  channel_untouched s s1 ∧
  fst (connect reference H1 s1) = Resolved H1 ∧
  apps s2 !! next_app s = Some browsing_app ∧
  trace s2 = trace s1 ++ [CallConnectUnregistered (next_app s)] ∧
  isRegistered reference H1 s2 = (Resolved false, s2) ∧
  networkState reference H1 s2 = (Resolved "Connected", s2).
Proof.
  exact (initialise_then_connect reference [] None appInfo fresh_app browsing_app
           eq_refl eq_refl eq_refl eq_refl).
Defined.

(** ** Where the description and the code part *)

(** C4 as stated fails: handle 0 is valid, yet a request for a permission
    kind the encoder refuses is never dispatched, and the promise is rejected
    without any callback having fired. *)
Lemma authorise_refused_request_counterexample :
  let s := created in
  let p := fst (authorise reference 0 write_public None s) in
  let s1 := snd (authorise reference 0 write_public None s) in
  handles s !! 0 = Some session ∧
  dispatches s1 = dispatches s ∧
  dispatches s1 ≠ S (dispatches s) ∧
  inflight s1 = ∅ ∧
  await p s1 = Rejected (OperationFailed "Invalid permission").
Proof. vm_compute. repeat split. discriminate. Qed.

(** C5 as stated fails: the session has been created but never connected,
    and [isRegistered] resolves all the same. *)
Lemma isRegistered_unconnected_counterexample :
  let s := created in
  handles s !! 0 = Some session ∧
  networkState reference 0 s = (Resolved "Init", s) ∧
  isRegistered reference 0 s = (Resolved false, s) ∧
  ¬ ∃ e, fst (isRegistered reference 0 s) = Rejected e.
Proof.
  vm_compute. repeat split. intros [e He]. discriminate.
Qed.

(** * Further properties of the two modules *)

Section Coverage.
Context {App NetObj : Type}.
Variable host : Host App NetObj.

Implicit Types s : State App NetObj.

(** ** Unknown handles leave no trace *)

Lemma then_getObj_unknown {A} (f : Obj NetObj → M (State App NetObj) A) h s :
  handles s !! h = None → then_ (getObj h) f s = (Rejected UnknownHandle, s).
Proof. intros Hh. by erewrite then_rejected by by apply getObj_none. Qed.

Lemma then_getObj_known {A} (f : Obj NetObj → M (State App NetObj) A) h obj s :
  handles s !! h = Some obj → then_ (getObj h) f s = f obj s.
Proof. intros Hh. by erewrite then_resolved by by apply getObj_some. Qed.

Lemma invoke_unknown_frame (op : operation) (h : Handle)
    (s : State App NetObj) :
  handles s !! h = None →
  let s' := snd (invoke host op h s) in
  trace s' = trace s ∧
  handles s' = handles s ∧
  apps s' = apps s ∧
  sessions_untouched s s' ∧
  inflight s' = inflight s ∧
  next_request s' = next_request s ∧
  (is_authorisation op = false → s' = s).
Proof.
  intros Hh s'. subst s'.
  destruct op; cbv [invoke];
    try (rewrite snd_answer;
         unfold connect, connectAuthorised, webFetch, isRegistered, networkState,
           canAccessContainer, refreshContainersPermissions, getContainersNames,
           getHomeContainer, getContainer, CryptoPublicSignKey.getRaw,
           CryptoPublicSignKey.verify;
         rewrite (then_getObj_unknown _ h s Hh); by repeat split).
  - rewrite snd_awaiting.
    unfold authorise, new_promise, catch_, then_, getObj, reject, settle. simpl.
    rewrite Hh. simpl. rewrite lookup_insert_eq. by repeat split.
  - rewrite snd_awaiting.
    unfold authoriseContainer, new_promise, catch_, then_, getObj, reject, settle.
    simpl. rewrite Hh. simpl. rewrite lookup_insert_eq. by repeat split.
Qed.

(** X1.  An operation invoked with a handle the registry does not know makes
    no native call, dispatches nothing and touches neither the registry nor
    any instance; apart from the two authorisation requests, which have
    created (and rejected) their promise, it leaves the state exactly as it
    was. *)
Theorem unknown_handle_has_no_effect (op : operation) (h : Handle)
    (s : State App NetObj) :
  handles s !! h = None →
  let s' := snd (invoke host op h s) in
  trace s' = trace s ∧
  sessions_untouched s s' ∧
  inflight s' = inflight s ∧
  next_request s' = next_request s ∧
  (is_authorisation op = false → s' = s).
Proof.
  intros Hh.
  destruct (invoke_unknown_frame op h s Hh) as (? & _ & _ & ? & ? & ? & ?).
  done.
Qed.

(** ** The callbacks *)

Lemma settle_twice p (r r' : promise (option AuthURI)) s :
  r ≠ Pending → settle p r' (settle p r s) = settle p r s.
Proof.
  intros Hr. unfold settle at 2 3.
  destruct (promises s !! p) as [[ | x | e]|] eqn:Hp;
    try (unfold settle; by rewrite Hp).
  unfold settle. simpl. rewrite lookup_insert_eq. by destruct r.
Qed.

(** X2.  A callback settles its promise once.  Invoked a second time, with
    whatever arguments, it changes nothing: a late or duplicated reply cannot
    turn a granted authorisation into a denied one, nor the reverse. *)
Theorem callback_settles_once (cb : Callback) (err err' : option string)
    (res res' : option AuthURI) (s : State App NetObj) :
  run_callback cb err' res' (run_callback cb err res s) = run_callback cb err res s.
Proof.
  rewrite !callbacks_protocol_reply. unfold protocol_reply, resolve, reject.
  destruct err, err'; by rewrite settle_twice.
Qed.

(** ** [initialise] *)

(** X3.  When the library refuses the application, [initialise] rejects with
    that failure and registers nothing: no handle is used up, and the registry
    and the instances are as they were.  The library has been handed the
    [appInfo] with its [scope] already overwritten. *)
Theorem initialise_refused (this : option ThisContext) (appInfo : AppInfo)
    (cause : string) (s : State App NetObj) :
  let appInfo' := fst (initialise host this appInfo) in
  initializeApp (safeApp host) appInfo' = Rejects cause →
  snd (initialise host this appInfo) s =
    (Rejected (OperationFailed cause), log (CallInitializeApp appInfo') s).
Proof.
  intros appInfo' Hinit.
  unfold initialise. cbn [snd]. unfold then_, new_app.
  unfold initialise in appInfo'. cbn [fst] in appInfo'. fold appInfo'.
  by rewrite Hinit.
Qed.

(** X4.  The handle [initialise] resolves with stands for the application
    itself, not for a network object: given to the key adapter it resolves in
    the registry, and [getRaw] and [verify] then fail with a [TypeError]
    without any native call. *)
Theorem session_handle_is_no_key (this : option ThisContext) (appInfo : AppInfo)
    (s : State App NetObj) (H1 : Handle) (data : Bytes) :
  fst (snd (initialise host this appInfo) s) = Resolved H1 →
  let s1 := snd (snd (initialise host this appInfo) s) in
  is_Some (handles s1 !! H1) ∧
  CryptoPublicSignKey.getRaw host H1 s1 = (Rejected (TypeError "netObj"), s1) ∧
  CryptoPublicSignKey.verify host H1 data s1 = (Rejected (TypeError "netObj"), s1).
Proof.
  unfold initialise. cbn [snd]. unfold then_ at 1 2, new_app.
  destruct (initializeApp _ _) as [st | cause]; [| discriminate].
  unfold genHandle. cbn [fst snd]. intros [= <-].
  set (s1 := set_next_handle _ _).
  assert (Hh : handles s1 !! next_handle s =
                 Some {| app := next_app s; netObj := None |})
    by apply lookup_insert_eq.
  split; [by rewrite Hh |].
  unfold CryptoPublicSignKey.getRaw, CryptoPublicSignKey.verify.
  by rewrite !(then_getObj_known _ _ _ _ Hh).
Qed.

(** ** Container handles *)

(** the step [getHomeContainer] and [getContainer] share: a native call on
    the instance, then a handle for its result *)
Lemma container_allocated (c : NativeCall NetObj) (f : App → native NetObj)
    (a0 : AppRef) (st : App) (md : NetObj) s :
  wf s → apps s !! a0 = Some st → f st = Resolves md →
  let r := then_ (call_app a0 c f) (fun md => genHandle a0 (Some md)) s in
  fst r = Resolved (next_handle s) ∧
  handles s !! next_handle s = None ∧
  handles (snd r) =
    <[next_handle s := {| app := a0; netObj := Some md |}]> (handles s) ∧
  apps (snd r) = apps s.
Proof.
  intros Hwf Ha Hf. cbn zeta.
  unfold then_, call_app, lift, genHandle. rewrite Ha, Hf. simpl.
  repeat split.
  destruct (handles s !! next_handle s) as [o|] eqn:Hold; [| done].
  pose proof (wf_handles _ Hwf _ _ Hold). lia.
Qed.

(** X5.  [getContainer] on a session whose container the library returns
    resolves with a handle that was not in use and differs from the session's;
    the new entry holds the returned MutableData together with the session's
    own application instance; every entry that was there is still there, and
    no instance has changed. *)
Theorem getContainer_allocates (history : list event) (h : Handle)
    (obj : Obj NetObj) (a : App) (name : string) (md : NetObj) :
  let s := run host history init in
  handles s !! h = Some obj →
  apps s !! app obj = Some a →
  auth_getContainer (safeApp host) a name = Resolves md →
  let H2 := next_handle s in
  let s' := snd (getContainer host h name s) in
  fst (getContainer host h name s) = Resolved H2 ∧
  H2 ≠ h ∧
  handles s !! H2 = None ∧
  handles s' !! H2 = Some {| app := app obj; netObj := Some md |} ∧
  (∀ h' o, handles s !! h' = Some o → handles s' !! h' = Some o) ∧
  apps s' = apps s.
Proof.
  intros s Hh Ha Hmd H2 s'.
  assert (Hwf : wf s) by apply wf_run, wf_init.
  subst s'. unfold getContainer. rewrite (then_getObj_known _ _ _ _ Hh).
  destruct (container_allocated (CallGetContainer (app obj) name)
              (fun a => auth_getContainer (safeApp host) a name)
              (app obj) a md s Hwf Ha Hmd) as (Hr & Hfresh & Hhs & Hap).
  fold H2 in Hr, Hfresh, Hhs.
  split; [exact Hr |]. split; [intros E; by rewrite E, Hh in Hfresh |].
  split; [exact Hfresh |].
  rewrite Hhs. split; [apply lookup_insert_eq |]. split; [| exact Hap].
  intros h' o Ho. rewrite lookup_insert_ne; [done |]. intros <-.
  by rewrite Hfresh in Ho.
Qed.

(** X6.  [getHomeContainer] does the same for the application's own
    container: a handle not in use, holding the MutableData and the session's
    instance, with every earlier entry and every instance left as it was. *)
Theorem getHomeContainer_allocates (history : list event) (h : Handle)
    (obj : Obj NetObj) (a : App) (md : NetObj) :
  let s := run host history init in
  handles s !! h = Some obj →
  apps s !! app obj = Some a →
  auth_getHomeContainer (safeApp host) a = Resolves md →
  let H2 := next_handle s in
  let s' := snd (getHomeContainer host h s) in
  fst (getHomeContainer host h s) = Resolved H2 ∧
  H2 ≠ h ∧
  handles s !! H2 = None ∧
  handles s' !! H2 = Some {| app := app obj; netObj := Some md |} ∧
  (∀ h' o, handles s !! h' = Some o → handles s' !! h' = Some o) ∧
  apps s' = apps s.
Proof.
  intros s Hh Ha Hmd H2 s'.
  assert (Hwf : wf s) by apply wf_run, wf_init.
  subst s'. unfold getHomeContainer. rewrite (then_getObj_known _ _ _ _ Hh).
  destruct (container_allocated (CallGetHomeContainer (app obj))
              (auth_getHomeContainer (safeApp host))
              (app obj) a md s Hwf Ha Hmd) as (Hr & Hfresh & Hhs & Hap).
  fold H2 in Hr, Hfresh, Hhs.
  split; [exact Hr |]. split; [intros E; by rewrite E, Hh in Hfresh |].
  split; [exact Hfresh |].
  rewrite Hhs. split; [apply lookup_insert_eq |]. split; [| exact Hap].
  intros h' o Ho. rewrite lookup_insert_ne; [done |]. intros <-.
  by rewrite Hfresh in Ho.
Qed.

(** X7.  When the library refuses the container, [getContainer] and
    [getHomeContainer] fail with that failure and allocate nothing: the state
    differs from the one before by the record of the one native call. *)
Theorem container_refused_allocates_nothing (s : State App NetObj) (h : Handle)
    (obj : Obj NetObj) (a : App) (name : string) :
  handles s !! h = Some obj →
  apps s !! app obj = Some a →
  (∀ cause, auth_getContainer (safeApp host) a name = Rejects cause →
     getContainer host h name s =
       (Rejected (OperationFailed cause), log (CallGetContainer (app obj) name) s)) ∧
  (∀ cause, auth_getHomeContainer (safeApp host) a = Rejects cause →
     getHomeContainer host h s =
       (Rejected (OperationFailed cause), log (CallGetHomeContainer (app obj)) s)).
Proof.
  intros Hh Ha. split; intros cause Hf.
  - unfold getContainer. rewrite (then_getObj_known _ _ _ _ Hh).
    unfold then_, call_app, lift. by rewrite Ha, Hf.
  - unfold getHomeContainer. rewrite (then_getObj_known _ _ _ _ Hh).
    unfold then_, call_app, lift. by rewrite Ha, Hf.
Qed.

(** ** [refreshContainersPermissions] *)

(** X8.  [refreshContainersPermissions] resolves with the token it was given
    once the library has refreshed the instance, and the queries that follow
    are answered from the refreshed instance; when the library fails, so does
    the call, and the instance is not replaced. *)
Theorem refresh_then_query (s : State App NetObj) (h : Handle) (obj : Obj NetObj)
    (a : App) (name : string) (permissions : option (list string)) :
  handles s !! h = Some obj →
  apps s !! app obj = Some a →
  (∀ a', auth_refreshContainersPermissions (safeApp host) a = Resolves a' →
     let s' := snd (refreshContainersPermissions host h s) in
     fst (refreshContainersPermissions host h s) = Resolved h ∧
     apps s' !! app obj = Some a' ∧
     handles s' = handles s ∧
     fst (canAccessContainer host h name permissions s') =
       settlement (auth_canAccessContainer (safeApp host) a' name permissions) ∧
     fst (getContainersNames host h s') =
       settlement (auth_getContainersNames (safeApp host) a')) ∧
  (∀ cause, auth_refreshContainersPermissions (safeApp host) a = Rejects cause →
     refreshContainersPermissions host h s =
       (Rejected (OperationFailed cause),
        log (CallRefreshContainersPermissions (app obj)) s)).
Proof.
  intros Hh Ha. split.
  - intros a' Hr.
    assert (Hrun : refreshContainersPermissions host h s =
      (Resolved h,
       set_apps (insert (app obj) a')
         (log (CallRefreshContainersPermissions (app obj)) s))).
    { unfold refreshContainersPermissions. rewrite (then_getObj_known _ _ _ _ Hh).
      unfold then_, update_app, ret. by rewrite Ha, Hr. }
    rewrite Hrun. cbn [fst snd]. set (s' := set_apps _ _).
    assert (Hh' : handles s' !! h = Some obj) by exact Hh.
    assert (Ha' : apps s' !! app obj = Some a') by apply lookup_insert_eq.
    repeat split; try done.
    + unfold canAccessContainer. rewrite (then_getObj_known _ _ _ _ Hh').
      unfold call_app, lift. by rewrite Ha'.
    + unfold getContainersNames. rewrite (then_getObj_known _ _ _ _ Hh').
      unfold call_app, lift. by rewrite Ha'.
  - intros cause Hr. unfold refreshContainersPermissions.
    rewrite (then_getObj_known _ _ _ _ Hh).
    unfold then_, update_app. by rewrite Ha, Hr.
Qed.

(** ** What using a handle cannot do *)

#[export] Instance handles_kept_frame :
  Frame (handles_kept (App := App) (NetObj := NetObj)).
Proof.
  split.
  - intros s. split; [lia | auto].
  - intros s1 s2 s3 [Hn12 H12] [Hn23 H23]. split; [lia |].
    intros h o Hlt Ho. apply H23; [lia |]. by apply H12.
  - intros c s. split; simpl; [lia | auto].
  - intros a st s. split; simpl; [lia | auto].
  - intros n s. split; simpl; [lia | auto].
Qed.

#[export] Instance handles_kept_alloc :
  FrameAlloc (handles_kept (App := App) (NetObj := NetObj)).
Proof.
  split. intros a o s. split; simpl; [lia |].
  intros h ob Hlt Ho. rewrite lookup_insert_ne; [done | lia].
Qed.

Lemma step_keeps_handle e s h o :
  h < next_handle s → handles s !! h = Some o → frees h e = false →
  h < next_handle (step host e s) ∧ handles (step host e s) !! h = Some o.
Proof.
  intros Hlt Ho Hfree.
  assert (Hkept : handles_kept s (step host e s) →
            h < next_handle (step host e s) ∧ handles (step host e s) !! h = Some o).
  { intros [Hn Hk]. split; [lia | by apply Hk]. }
  destruct e as [this info | op h' | h' | h' | rid err res]; cbn [step].
  - apply Hkept. apply (preserves_initialise host _).
  - destruct (is_authorisation op) eqn:Hop.
    + destruct (invoke_authorisation_protocol host op h' s Hop)
        as (build & correlate & Hbuild & _ & ->).
      destruct (protocol_cases build correlate h' s Hbuild)
        as (_ & (Eh & Enh & _ & _) & _).
      by rewrite Eh, Enh.
    + apply Hkept. by apply (preserves_invoke host _).
  - simpl in Hfree. apply N.eqb_neq in Hfree.
    unfold free, freeObj. case_match; [| done]. simpl.
    by rewrite lookup_delete_ne.
  - simpl in Hfree. apply N.eqb_neq in Hfree.
    unfold CryptoPublicSignKey.free, freeObj. case_match; [| done]. simpl.
    by rewrite lookup_delete_ne.
  - destruct (deliver_sessions_untouched rid err res s) as ((Eh & Enh & _ & _) & _).
    by rewrite Eh, Enh.
Qed.

(** X9.  A handle stays valid, and keeps its entry, until it is freed
    itself: no operation invoked with it or with any other handle, no
    [initialise], no reply of the authenticator and no [free] of another
    handle removes or rewrites its entry. *)
Theorem handle_valid_until_freed (history evs : list event) (h : Handle)
    (o : Obj NetObj) :
  let s := run host history init in
  handles s !! h = Some o →
  forallb (fun e => negb (frees h e)) evs = true →
  handles (run host evs s) !! h = Some o.
Proof.
  intros s Ho Hevs.
  assert (Hlt : h < next_handle s).
  { eapply wf_handles; [apply wf_run, wf_init | exact Ho]. }
  clearbody s. revert s Ho Hlt.
  induction evs as [| e evs IH]; intros s Ho Hlt; simpl; [done |].
  simpl in Hevs. apply andb_prop in Hevs as [He Hevs].
  apply negb_true_iff in He.
  destruct (step_keeps_handle e s h o Hlt Ho He). by apply IH.
Qed.

(** X10.  An operation acts on the instance of the handle it is invoked
    with and on no other: whatever the operation and its outcome, every other
    native instance is afterwards what it was. *)
Theorem other_instances_untouched (op : operation) (h : Handle)
    (s : State App NetObj) (b : AppRef) :
  (∀ obj, handles s !! h = Some obj → app obj ≠ b) →
  apps (snd (invoke host op h s)) !! b = apps s !! b.
Proof.
  intros Hother.
  destruct (handles s !! h) as [obj|] eqn:Hh.
  2:{ destruct (invoke_unknown_frame op h s Hh) as (_ & _ & -> & _). done. }
  specialize (Hother obj eq_refl).
  destruct (is_authorisation op) eqn:Hop.
  { destruct (invoke_authorisation_protocol host op h s Hop)
      as (build & correlate & Hbuild & _ & ->).
    destruct (protocol_cases build correlate h s Hbuild)
      as (_ & (_ & _ & -> & _) & _). done. }
  destruct op; try discriminate; cbv [invoke]; rewrite snd_answer;
    unfold connect, connectAuthorised, webFetch, isRegistered, networkState,
      canAccessContainer, refreshContainersPermissions, getContainersNames,
      getHomeContainer, getContainer, CryptoPublicSignKey.getRaw,
      CryptoPublicSignKey.verify;
    rewrite (then_getObj_known _ _ _ _ Hh);
    unfold then_, update_app, call_app, read_app, call_netObj, lift, ret, throw,
      genHandle;
    repeat (case_match; simplify_eq/=); try done;
    by rewrite lookup_insert_ne.
Qed.

(** ** Handles of one session *)

(** X11.  Two handles whose entries name the same application instance -
    a session's handle and the handles of its containers - are
    interchangeable for every operation on the application: invoked with
    either, the operation leaves the same state, and unless it resolves with
    the token itself it gives the same answer. *)
Theorem handles_of_one_session (op : operation) (h1 h2 : Handle)
    (o1 o2 : Obj NetObj) (s : State App NetObj) :
  handles s !! h1 = Some o1 →
  handles s !! h2 = Some o2 →
  app o1 = app o2 →
  uses_netObj op = false →
  snd (invoke host op h1 s) = snd (invoke host op h2 s) ∧
  (returns_token op = false →
     fst (invoke host op h1 s) = fst (invoke host op h2 s)).
Proof.
  intros H1 H2 Happ Hop.
  destruct op; try discriminate; cbv [invoke];
    rewrite ?snd_answer, ?fst_answer, ?snd_awaiting, ?fst_awaiting;
    unfold connect, connectAuthorised, webFetch, isRegistered, networkState,
      canAccessContainer, refreshContainersPermissions, getContainersNames,
      getHomeContainer, getContainer;
    rewrite ?(then_getObj_known _ _ _ _ H1), ?(then_getObj_known _ _ _ _ H2);
    try (rewrite Happ; unfold then_, ret;
         split; [| intros Hret; try discriminate Hret];
         repeat case_match; by simplify_eq/=).
  - unfold authorise, new_promise, catch_, then_, getObj. simpl.
    rewrite H1, H2, Happ. done.
  - unfold authoriseContainer, new_promise, catch_, then_, getObj. simpl.
    rewrite H1, H2, Happ. done.
Qed.

(** ** [authoriseContainer] and concurrent requests *)

Lemma authoriseContainer_dispatch h permissions s obj a req :
  handles s !! h = Some obj → apps s !! app obj = Some a →
  genContainerAuthUri (safeApp host) a permissions = Resolves req →
  authoriseContainer host h permissions s =
    (next_promise s,
     log (CallSendAuthReq req)
       (set_next_request (next_request s + 1)
          (set_inflight
             (insert (next_request s) (req, AuthoriseContainerCb (next_promise s)))
             (log (CallGenContainerAuthUri (app obj) permissions)
                (set_next_promise (next_promise s + 1)
                   (set_promises (insert (next_promise s) Pending) s)))))).
Proof.
  intros Hh Ha Hreq.
  unfold authoriseContainer, new_promise, catch_, then_, getObj, call_app, lift,
    sendAuthReq.
  simpl. rewrite Hh. simpl. rewrite Ha, Hreq. reflexivity.
Qed.

Lemma authoriseContainer_refused h permissions s obj a cause :
  handles s !! h = Some obj → apps s !! app obj = Some a →
  genContainerAuthUri (safeApp host) a permissions = Rejects cause →
  authoriseContainer host h permissions s =
    (next_promise s,
     set_promises (insert (next_promise s) (Rejected (OperationFailed cause)))
       (log (CallGenContainerAuthUri (app obj) permissions)
          (set_next_promise (next_promise s + 1)
             (set_promises (insert (next_promise s) Pending) s)))).
Proof.
  intros Hh Ha Hreq.
  unfold authoriseContainer, new_promise, catch_, then_, getObj, call_app, lift,
    sendAuthReq.
  simpl. rewrite Hh. simpl. rewrite Ha, Hreq. simpl.
  unfold reject, settle. simpl. rewrite lookup_insert_eq. reflexivity.
Qed.

Lemma wf_authoriseContainer h permissions s :
  wf s → wf (snd (authoriseContainer host h permissions s)).
Proof.
  intros Hwf. rewrite authoriseContainer_protocol. apply wf_protocol; [| done | done].
  intros obj. apply call_app_only_trace.
Qed.

(** X12.  [authoriseContainer] on a valid session handle has the library
    encode the request.  When that succeeds exactly one request is
    dispatched and the promise is pending until the reply to that request
    arrives, whatever else happens meanwhile; the reply rejects it with
    [AuthorizationDenied] when it carries an error and resolves it with the
    URI otherwise.  When the library refuses the request nothing is
    dispatched and the promise rejects at once.  Either way the registry and
    the instances are untouched. *)
Theorem authoriseContainer_dispatches_once (history : list event) (h : Handle)
    (obj : Obj NetObj) (a : App) (permissions : PermissionSet) :
  let s := run host history init in
  handles s !! h = Some obj →
  apps s !! app obj = Some a →
  let p := fst (authoriseContainer host h permissions s) in
  let s1 := snd (authoriseContainer host h permissions s) in
  let rid := next_request s in
  sessions_untouched s s1 ∧
  match genContainerAuthUri (safeApp host) a permissions with
  | Resolves req =>
      dispatches s1 = S (dispatches s) ∧
      inflight s1 = <[rid := (req, AuthoriseContainerCb p)]> (inflight s) ∧
      (∀ evs, no_reply rid evs = true → await p (run host evs s1) = Pending) ∧
      (∀ evs err res, no_reply rid evs = true →
         await p (deliver rid err res (run host evs s1)) =
           match err with
           | Some _ => Rejected AuthorizationDenied
           | None => Resolved res
           end)
  | Rejects cause =>
      dispatches s1 = dispatches s ∧
      inflight s1 = inflight s ∧
      await p s1 = Rejected (OperationFailed cause)
  end.
Proof.
  intros s Hh Ha p s1 rid.
  assert (Hwf : wf s) by apply wf_run, wf_init.
  assert (Hwf1 : wf s1) by by apply wf_authoriseContainer.
  split.
  { unfold s1. rewrite authoriseContainer_protocol.
    apply protocol_cases. intros o. apply call_app_only_trace. }
  subst p s1. destruct (genContainerAuthUri _ _ _) as [req | cause] eqn:Hreq.
  - rewrite (authoriseContainer_dispatch _ _ _ _ _ _ Hh Ha Hreq) in *.
    cbn [fst snd] in *. set (s1 := log _ _) in *.
    assert (Hin1 : inflight s1 !! rid =
                     Some (req, AuthoriseContainerCb (next_promise s)))
      by apply lookup_insert_eq.
    split; [| split; [| split]].
    + unfold dispatches. simpl. rewrite !List.filter_app, !length_app. simpl. lia.
    + reflexivity.
    + intros evs Hno.
      by apply (reply_settles host evs rid req
                  (AuthoriseContainerCb (next_promise s)) None None s1).
    + intros evs err res Hno.
      by apply (reply_settles host evs rid req
                  (AuthoriseContainerCb (next_promise s)) err res s1).
  - rewrite (authoriseContainer_refused _ _ _ _ _ _ Hh Ha Hreq). cbn [fst snd].
    split; [| split].
    + unfold dispatches. simpl. rewrite List.filter_app, length_app. simpl. lia.
    + reflexivity.
    + unfold await. simpl. by rewrite lookup_insert_eq.
Qed.

(** X13.  Two [authorise] calls on the same session that are both in
    flight do not share anything: they have different promises and different
    correlations, the reply to the second leaves the first pending, and each
    promise is settled by its own reply alone, in whichever order the replies
    come. *)
Theorem concurrent_authorise_independent (s : State App NetObj) (h : Handle)
    (obj : Obj NetObj) (a : App)
    (permissions1 permissions2 : PermissionSet) (options1 options2 : option Options)
    (req1 req2 : AuthReq) (err1 err2 : option string) (res1 res2 : option AuthURI) :
  handles s !! h = Some obj →
  apps s !! app obj = Some a →
  genAuthUri (safeApp host) a permissions1 options1 = Resolves req1 →
  genAuthUri (safeApp host) a permissions2 options2 = Resolves req2 →
  let p1 := fst (authorise host h permissions1 options1 s) in
  let s1 := snd (authorise host h permissions1 options1 s) in
  let p2 := fst (authorise host h permissions2 options2 s1) in
  let s2 := snd (authorise host h permissions2 options2 s1) in
  let rid1 := next_request s in
  let rid2 := next_request s1 in
  let outcome (err : option string) (res : option AuthURI) :=
    match err with
    | Some _ => Rejected AuthorizationDenied
    | None => Resolved res
    end in
  p1 ≠ p2 ∧ rid1 ≠ rid2 ∧
  await p1 s2 = Pending ∧ await p2 s2 = Pending ∧
  await p1 (deliver rid2 err2 res2 s2) = Pending ∧
  await p2 (deliver rid2 err2 res2 s2) = outcome err2 res2 ∧
  await p1 (deliver rid1 err1 res1 (deliver rid2 err2 res2 s2)) = outcome err1 res1 ∧
  await p2 (deliver rid1 err1 res1 (deliver rid2 err2 res2 s2)) = outcome err2 res2 ∧
  await p1 (deliver rid1 err1 res1 s2) = outcome err1 res1 ∧
  await p2 (deliver rid1 err1 res1 s2) = Pending.
Proof.
  intros Hh Ha Hreq1 Hreq2.
  rewrite (authorise_dispatch host _ _ _ _ _ _ _ Hh Ha Hreq1). cbn [fst snd].
  set (s1 := log _ _).
  assert (Hh1 : handles s1 !! h = Some obj) by exact Hh.
  assert (Ha1 : apps s1 !! app obj = Some a) by exact Ha.
  rewrite (authorise_dispatch host _ _ _ _ _ _ _ Hh1 Ha1 Hreq2). cbn [fst snd].
  set (s2 := log _ _).
  set (p1 := next_promise s). set (rid1 := next_request s).
  change (next_promise s1) with (p1 + 1). change (next_request s1) with (rid1 + 1).
  assert (Hp : p1 ≠ p1 + 1) by lia. assert (Hr : rid1 ≠ rid1 + 1) by lia.
  assert (Hpr2 : promises s2 = <[p1 + 1 := Pending]> (<[p1 := Pending]> (promises s)))
    by reflexivity.
  assert (Hin2 : inflight s2 =
            <[rid1 + 1 := (req2, AuthoriseCb (p1 + 1))]>
              (<[rid1 := (req1, AuthoriseCb p1)]> (inflight s)))
    by reflexivity.
  assert (Hl1 : inflight s2 !! rid1 = Some (req1, AuthoriseCb p1))
    by (rewrite Hin2, lookup_insert_ne, lookup_insert_eq; done).
  assert (Hl2 : inflight s2 !! (rid1 + 1) = Some (req2, AuthoriseCb (p1 + 1)))
    by (rewrite Hin2, lookup_insert_eq; done).
  assert (Hq1 : promises s2 !! p1 = Some Pending)
    by (rewrite Hpr2, lookup_insert_ne, lookup_insert_eq; done).
  assert (Hq2 : promises s2 !! (p1 + 1) = Some Pending)
    by (rewrite Hpr2, lookup_insert_eq; done).
  destruct (deliver_settles (rid1 + 1) err2 res2 s2 _ _ Hl2 Hq2) as [Ein3 Epr3].
  destruct (deliver_settles rid1 err1 res1 s2 _ _ Hl1 Hq1) as [Ein3' Epr3'].
  simpl in Epr3, Epr3'.
  set (s3 := deliver (rid1 + 1) err2 res2 s2) in *.
  assert (Hl3 : inflight s3 !! rid1 = Some (req1, AuthoriseCb p1))
    by (rewrite Ein3, lookup_delete_ne; done).
  assert (Hq3 : promises s3 !! p1 = Some Pending)
    by (rewrite Epr3, lookup_insert_ne; done).
  destruct (deliver_settles rid1 err1 res1 s3 _ _ Hl3 Hq3) as [_ Epr4].
  simpl in Epr4.
  assert (Hq3' : promises s3 !! (p1 + 1) =
            Some match err2 with
                 | Some _ => Rejected AuthorizationDenied
                 | None => Resolved res2
                 end)
    by (rewrite Epr3; apply lookup_insert_eq).
  unfold await. split; [done |]. split; [done |].
  split; [by rewrite Hq1 |]. split; [by rewrite Hq2 |].
  split; [by rewrite Hq3 |]. split; [by rewrite Hq3' |].
  split; [by rewrite Epr4, lookup_insert_eq |].
  split; [by rewrite Epr4, lookup_insert_ne, Hq3' by done |].
  split; [by rewrite Epr3', lookup_insert_eq |].
  rewrite Epr3', lookup_insert_ne by done.
  first [by rewrite Hq2 | by rewrite lookup_insert_eq].
Qed.

(** ** Failures of the native calls *)

(** X17.  [connect] and [connectAuthorised] give the token back only when
    the native call has resolved.  When the library rejects - no network, a
    URI it does not accept - the call fails with the library's failure after
    that one native call, and the registry is as it was: the handle is still
    valid for another attempt. *)
Theorem connect_refused (s : State App NetObj) (h : Handle) (obj : Obj NetObj)
    (a : App) (authUri : AuthURI) :
  handles s !! h = Some obj →
  apps s !! app obj = Some a →
  (∀ cause, connectUnregistered (safeApp host) a = Rejects cause →
     connect host h s =
       (Rejected (OperationFailed cause), log (CallConnectUnregistered (app obj)) s)) ∧
  (∀ cause, loginFromURI (safeApp host) a authUri = Rejects cause →
     connectAuthorised host h authUri s =
       (Rejected (OperationFailed cause), log (CallLoginFromURI (app obj) authUri) s)) ∧
  (∀ t, fst (connect host h s) = Resolved t →
     t = h ∧ ∃ a', connectUnregistered (safeApp host) a = Resolves a') ∧
  (∀ t, fst (connectAuthorised host h authUri s) = Resolved t →
     t = h ∧ ∃ a', loginFromURI (safeApp host) a authUri = Resolves a').
Proof.
  intros Hh Ha. unfold connect, connectAuthorised.
  rewrite !(then_getObj_known _ _ _ _ Hh). unfold then_, update_app, ret.
  rewrite Ha.
  split; [| split; [| split]].
  - intros cause ->. done.
  - intros cause ->. done.
  - intros t. destruct (connectUnregistered _ _) as [a' | cause]; [| done].
    intros [= <-]. eauto.
  - intros t. destruct (loginFromURI _ _ _) as [a' | cause]; [| done].
    intros [= <-]. eauto.
Qed.

(** ** The channel and the sessions keep apart *)

Lemma step_off_channel e s :
  on_channel e = false → channel_untouched s (step host e s).
Proof.
  intros He. destruct e as [this info | op h | h | h | rid err res];
    cbn [step]; simpl in He; try discriminate.
  - apply (preserves_initialise host _).
  - by apply (preserves_invoke host _).
  - apply freeObj_channel_untouched.
  - apply freeObj_channel_untouched.
Qed.

(** X14.  Only [authorise], [authoriseContainer] and the replies of the
    authenticator have to do with the channel: no other operation, no
    [initialise] and no [free] dispatches a request, retires a pending
    correlation or settles a promise - a pending authorisation is still
    pending after any number of them. *)
Theorem only_authorisation_uses_channel (evs : list event) (s : State App NetObj)
    (p : PromiseId) :
  forallb (fun e => negb (on_channel e)) evs = true →
  channel_untouched s (run host evs s) ∧
  await p (run host evs s) = await p s.
Proof.
  intros Hevs.
  assert (Hch : channel_untouched s (run host evs s)).
  { revert s. induction evs as [| e evs IH]; intros s; simpl; [apply frame_refl |].
    simpl in Hevs. apply andb_prop in Hevs as [He Hevs].
    apply negb_true_iff in He.
    eapply frame_trans; [by apply step_off_channel | by apply IH]. }
  split; [exact Hch |].
  destruct Hch as (Epr & _). unfold await. by rewrite Epr.
Qed.

(** what an operation outside the protocol answers is decided by the
    registry and the instances *)
Lemma answer_of_sessions op h s s' :
  sessions_untouched s s' → is_authorisation op = false →
  fst (invoke host op h s') = fst (invoke host op h s).
Proof.
  intros (Eh & Enh & Ea & Ena) Hop.
  destruct op; try discriminate; cbv [invoke]; rewrite !fst_answer; f_equal;
    unfold connect, connectAuthorised, webFetch, isRegistered, networkState,
      canAccessContainer, refreshContainersPermissions, getContainersNames,
      getHomeContainer, getContainer, CryptoPublicSignKey.getRaw,
      CryptoPublicSignKey.verify, then_, getObj, update_app, call_app, read_app,
      call_netObj, lift, ret, throw, genHandle;
    rewrite Eh; destruct (handles s !! h) as [obj|]; try done; simpl;
    rewrite ?Ea, ?Enh;
    repeat (case_match; simplify_eq/=); try done;
    rewrite ?Ea in *; simplify_eq/=; try done; congruence.
Qed.

Lemma step_on_channel_sessions e s :
  on_channel e = true → sessions_untouched s (step host e s).
Proof.
  intros He. destruct e as [this info | op h | h | h | rid err res];
    cbn [step]; simpl in He; try discriminate.
  - destruct (invoke_authorisation_protocol host op h s He)
      as (build & correlate & Hbuild & _ & ->).
    by apply protocol_cases.
  - apply deliver_sessions_untouched.
Qed.

(** X15.  The authorisation protocol, from the request to the reply,
    changes the answer of no other operation: whether the authenticator
    grants or denies, [isRegistered] and every other operation answer after
    the step what they answered before it.  A granted authorisation registers
    nothing until its URI is given to [connectAuthorised]. *)
Theorem authorisation_changes_no_answer (e : event) (s : State App NetObj)
    (op : operation) (h : Handle) :
  on_channel e = true →
  is_authorisation op = false →
  sessions_untouched s (step host e s) ∧
  fst (invoke host op h (step host e s)) = fst (invoke host op h s).
Proof.
  intros He Hop.
  pose proof (step_on_channel_sessions e s He) as Hs.
  split; [exact Hs | by apply answer_of_sessions].
Qed.

End Coverage.

(** ** The manifests *)


(** * The further properties on the reference host *)

Import Scenario.

Lemma unknown_handle_has_no_effect_witness :
  let s' := snd (invoke reference (Authorise insert_public None) 7 created) in
  trace s' = trace created ∧
  sessions_untouched created s' ∧
  inflight s' = inflight created ∧
  next_request s' = next_request created ∧
  (is_authorisation (Authorise insert_public None) = false → s' = created).
Proof.
  exact (unknown_handle_has_no_effect reference (Authorise insert_public None) 7
           created eq_refl).
Defined.

Lemma initialise_refused_witness :
  let appInfo' := fst (initialise strict None anonymous) in
  snd (initialise strict None anonymous) init =
    (Rejected (OperationFailed "Missing id"), log (CallInitializeApp appInfo') init).
Proof.
  exact (initialise_refused strict None anonymous "Missing id" init eq_refl).
Defined.

Lemma session_handle_is_no_key_witness :
  let s1 := snd (snd (initialise reference None appInfo) init) in
  is_Some (handles s1 !! 0) ∧
  CryptoPublicSignKey.getRaw reference 0 s1 = (Rejected (TypeError "netObj"), s1) ∧
  CryptoPublicSignKey.verify reference 0 [Byte.x01] s1 =
    (Rejected (TypeError "netObj"), s1).
Proof.
  exact (session_handle_is_no_key reference None appInfo init 0 [Byte.x01] eq_refl).
Defined.

Lemma getContainer_allocates_witness :
  let s := run reference login init in
  let s' := snd (getContainer reference 0 "_public" s) in
  fst (getContainer reference 0 "_public" s) = Resolved 1 ∧
  handles s' !! 1 = Some {| app := 0; netObj := Some (Container "_public") |}.
Proof.
  pose proof (getContainer_allocates reference login 0 session logged_in_app
                "_public" (Container "_public") eq_refl eq_refl eq_refl) as H.
  exact (conj (proj1 H) (proj1 (proj2 (proj2 (proj2 H))))).
Defined.

Lemma getHomeContainer_allocates_witness :
  let s := run reference login init in
  let s' := snd (getHomeContainer reference 0 s) in
  fst (getHomeContainer reference 0 s) = Resolved 1 ∧
  handles s' !! 1 = Some {| app := 0; netObj := Some (Container "home") |}.
Proof.
  pose proof (getHomeContainer_allocates reference login 0 session logged_in_app
                (Container "home") eq_refl eq_refl eq_refl) as H.
  exact (conj (proj1 H) (proj1 (proj2 (proj2 (proj2 H))))).
Defined.

Lemma container_refused_allocates_nothing_witness :
  getContainer reference 0 "_public" created =
    (Rejected (OperationFailed "No access"),
     log (CallGetContainer 0 "_public") created) ∧
  getHomeContainer reference 0 created =
    (Rejected (OperationFailed "No access"), log (CallGetHomeContainer 0) created).
Proof.
  pose proof (container_refused_allocates_nothing reference created 0 session
                fresh_app "_public" eq_refl eq_refl) as [Hc Hh].
  exact (conj (Hc "No access" eq_refl) (Hh "No access" eq_refl)).
Defined.

Lemma refresh_then_query_witness :
  let s' := snd (refreshContainersPermissions reference 0 logged_in) in
  fst (refreshContainersPermissions reference 0 logged_in) = Resolved 0 ∧
  apps s' !! 0 = Some logged_in_app ∧
  handles s' = handles logged_in ∧
  fst (canAccessContainer reference 0 "_public" None s') = Resolved true ∧
  fst (getContainersNames reference 0 s') = Resolved ["_public"].
Proof.
  exact (proj1 (refresh_then_query reference logged_in 0 session logged_in_app
                  "_public" None eq_refl eq_refl) logged_in_app eq_refl).
Defined.

Lemma handle_valid_until_freed_witness :
  handles (run reference
             [Free 1; Invoke Connect 1; Initialise None appInfo;
              Invoke (Authorise insert_public None) 0; Deliver 0 None None]
             (run reference [Initialise None appInfo; Initialise None appInfo] init))
    !! 0 = Some session.
Proof.
  exact (handle_valid_until_freed reference
           [Initialise None appInfo; Initialise None appInfo]
           [Free 1; Invoke Connect 1; Initialise None appInfo;
            Invoke (Authorise insert_public None) 0; Deliver 0 None None]
           0 session eq_refl eq_refl).
Defined.

Lemma other_instances_untouched_witness :
  apps (snd (invoke reference Connect 0 two_sessions)) !! 1 = apps two_sessions !! 1.
Proof.
  apply (other_instances_untouched reference Connect 0 two_sessions 1).
  intros obj Hobj. vm_compute in Hobj. injection Hobj as <-. discriminate.
Defined.

Lemma handles_of_one_session_witness :
  snd (invoke reference IsRegistered 0 with_container) =
    snd (invoke reference IsRegistered 1 with_container) ∧
  (returns_token IsRegistered = false →
     fst (invoke reference IsRegistered 0 with_container) =
       fst (invoke reference IsRegistered 1 with_container)).
Proof.
  exact (handles_of_one_session reference IsRegistered 0 1 session
           {| app := 0; netObj := Some (Container "_public") |} with_container
           eq_refl eq_refl eq_refl eq_refl).
Defined.

Lemma authoriseContainer_dispatches_once_witness :
  let s := run reference [Initialise None appInfo] init in
  let s1 := snd (authoriseContainer reference 0 insert_public s) in
  sessions_untouched s s1 ∧ dispatches s1 = S (dispatches s).
Proof.
  pose proof (authoriseContainer_dispatches_once reference [Initialise None appInfo]
                0 session fresh_app insert_public eq_refl eq_refl) as H.
  exact (conj (proj1 H) (proj1 (proj2 H))).
Defined.

Lemma concurrent_authorise_independent_witness :
  let p1 := fst (authorise reference 0 insert_public None created) in
  let s1 := snd (authorise reference 0 insert_public None created) in
  let p2 := fst (authorise reference 0 insert_public None s1) in
  p1 ≠ p2 ∧ next_request created ≠ next_request s1.
Proof.
  pose proof (concurrent_authorise_independent reference created 0 session fresh_app
                insert_public insert_public None None
                "safe-auth://request" "safe-auth://request"
                None (Some "denied") (Some granted_uri) None
                eq_refl eq_refl eq_refl eq_refl) as H.
  exact (conj (proj1 H) (proj1 (proj2 H))).
Defined.

Lemma only_authorisation_uses_channel_witness :
  channel_untouched awaiting_grant
    (run reference [Invoke Connect 0; Initialise None appInfo; Free 1] awaiting_grant) ∧
  await 0 (run reference [Invoke Connect 0; Initialise None appInfo; Free 1]
             awaiting_grant) =
    await 0 awaiting_grant.
Proof.
  exact (only_authorisation_uses_channel reference
           [Invoke Connect 0; Initialise None appInfo; Free 1] awaiting_grant 0 eq_refl).
Defined.

Lemma authorisation_changes_no_answer_witness :
  let e := Deliver 0 None (Some granted_uri) in
  sessions_untouched awaiting_grant (step reference e awaiting_grant) ∧
  fst (invoke reference IsRegistered 0 (step reference e awaiting_grant)) =
    fst (invoke reference IsRegistered 0 awaiting_grant).
Proof.
  exact (authorisation_changes_no_answer reference (Deliver 0 None (Some granted_uri))
           awaiting_grant IsRegistered 0 eq_refl eq_refl).
Defined.


Lemma connect_refused_witness :
  connectAuthorised reference 0 "safe-auth://forged" created =
    (Rejected (OperationFailed "Invalid URI"),
     log (CallLoginFromURI 0 "safe-auth://forged") created).
Proof.
  exact (proj1 (proj2 (connect_refused reference created 0 session fresh_app
                         "safe-auth://forged" eq_refl eq_refl))
           "Invalid URI" eq_refl).
Defined.
